(** * The Taskfile reader: recursive, concurrent resolution of includes

    A shallow embedding of [taskfile/reader.go] (package [taskfile] of
    go-task): the [Reader] that loads a root Taskfile, follows its
    [includes] concurrently and links the documents into an
    [ast.TaskfileGraph], together with the content loading path
    ([loadNodeContent]) that mediates between the network, the content
    cache and the trust prompt.

    Layout: the data model; the graph, the cache and the other
    collaborators of the reader; the two sequential functions
    [loadNodeContent] and [readNode] in a state and error monad; the
    goroutines of [include] as a machine whose steps a schedule
    interleaves, with [Read] on top; small worlds to run the reader
    in; and then the theorems: paths and cycles, the invariants of a
    run, and the properties of the reader. *)

From Stdlib Require Import List String Ascii Bool Arith NArith Lia Relations
  Permutation.
Import ListNotations.
Open Scope string_scope.
Open Scope list_scope.

(** ** Data model *)

(** [[]byte]: the raw content of a Taskfile. *)
Definition bytes := list Byte.byte.

(** [ast.Vars]: an ordered mapping from names to values. *)
Definition Vars := list (string * string).

(** [time.Duration], in nanoseconds. *)
Definition Duration := N.

(** The error values that travel through the reader.  The first group
    are the sentinels of the graph library and of [os]; the second the
    structured errors of package [errors]; [OtherError] stands for any
    other error a collaborator reports. *)
Inductive error : Type :=
| ErrVertexAlreadyExists
| ErrEdgeNotFound
| ErrEdgeAlreadyExists
| ErrEdgeCreatesCycle
| ErrNotExist
| TaskfileCycleError (Source Destination : string)
| TaskfileDecodeError (Line Column : nat) (Location Snippet : string)
| TaskfileInvalidError (URI : string) (Err : error)
| TaskfileVersionCheckError (URI : string)
| TaskfileCacheNotFoundError (URI : string)
| TaskfileNetworkTimeoutError (URI : string) (Timeout : Duration) (CheckedCache : bool)
| TaskfileNotTrustedError (URI : string)
| OtherError (msg : string).

(** [errors.Is(err, os.ErrNotExist)]. *)
Definition Is_ErrNotExist (err : error) : bool :=
  match err with ErrNotExist => true | _ => false end.

(** [errors.Is(err, &errors.TaskfileNetworkTimeoutError{})]: the match
    is on the kind of the error, whatever its fields. *)
Definition Is_TaskfileNetworkTimeoutError (err : error) : bool :=
  match err with TaskfileNetworkTimeoutError _ _ _ => true | _ => false end.

(** [errors.Is(err, graph.ErrEdgeCreatesCycle)]. *)
Definition Is_ErrEdgeCreatesCycle (err : error) : bool :=
  match err with ErrEdgeCreatesCycle => true | _ => false end.

(** [errors.As(err, &taskfileDecodeErr)]: the line and column of a
    decode error. *)
Definition As_TaskfileDecodeError (err : error) : option (nat * nat) :=
  match err with
  | TaskfileDecodeError line column _ _ => Some (line, column)
  | _ => None
  end.

Module Include.
(** [ast.Include]: one include declaration. *)
Record t : Type := mk {
  Namespace : string;
  Taskfile : string;
  Dir : string;
  Optional : bool;
  Internal : bool;
  Flatten : bool;
  Aliases : list string;
  AdvancedImport : bool;
  Excludes : list string;
  Vars : Vars
}.
End Include.

Module Location.
(** [ast.Location]: where a task was declared. *)
Record t : Type := mk {
  Line : nat;
  Column : nat;
  Taskfile : string
}.
End Location.

Module Task.
(** [ast.Task], reduced to the fields the reader touches. *)
Record t : Type := mk {
  Task : string;
  Location : Location.t
}.

(** [&ast.Task{}]: the zero value. *)
Definition zero : t := mk "" (Location.mk 0 0 "").

(** [task.Location.Taskfile = location]. *)
Definition setTaskfile (location : string) (task : t) : t :=
  mk (Task task)
     (Location.mk (Location.Line (Location task))
                  (Location.Column (Location task))
                  location).
End Task.

Module Taskfile.
(** [ast.Taskfile]: a parsed document.  [Tasks] maps a name to a
    [*ast.Task], which may be nil: [None]. *)
Record t : Type := mk {
  Location : string;
  Version : option string;
  Vars : Vars;
  Tasks : list (string * option Task.t);
  Includes : list Include.t
}.
End Taskfile.

Module Node.
(** A [Node]: the reference to a Taskfile.  The reader uses its
    [Location()] as identity and asks [Remote()] to choose the loading
    path; reading and resolving go through the [World] below. *)
Record t : Type := mk {
  Location : string;
  Remote : bool
}.
End Node.

(** ** The document graph *)

Module TaskfileVertex.
(** [ast.TaskfileVertex].  The graph stores a pointer to the vertex,
    so the [Taskfile] that [include] assigns after [AddVertex] shows
    in the graph: it is [None] while the document is being read. *)
Record t : Type := mk {
  URI : string;
  Taskfile : option Taskfile.t
}.
End TaskfileVertex.

Module Edge.
(** An edge of the graph with its properties: [Data] is the list of
    include declarations behind it, [Weight] the edge weight. *)
Record t : Type := mk {
  Source : string;
  Target : string;
  Data : list Include.t;
  Weight : nat
}.
End Edge.

(** [ast.TaskfileGraph]. *)
Record TaskfileGraph : Type := mkGraph {
  vertices : list TaskfileVertex.t;
  edges : list Edge.t
}.

(** [ast.NewTaskfileGraph()]. *)
Definition NewTaskfileGraph : TaskfileGraph := mkGraph [] [].

Definition hasVertex (g : TaskfileGraph) (uri : string) : bool :=
  existsb (fun v => TaskfileVertex.URI v =? uri) (vertices g).

Definition isEdge (source target : string) (e : Edge.t) : bool :=
  (Edge.Source e =? source) && (Edge.Target e =? target).

(** Modelled from the spec: [AddVertex] of the graph (its code is not
    among the sources).  An idempotent insert: a second vertex of the
    same identity is refused with the "already exists" signal and the
    graph is left as it was. *)
Definition AddVertex (g : TaskfileGraph) (v : TaskfileVertex.t)
  : error + TaskfileGraph :=
  if hasVertex g (TaskfileVertex.URI v) then inl ErrVertexAlreadyExists
  else inr (mkGraph (vertices g ++ [v]) (edges g)).

(** Modelled from the spec: the lookup of the edge between a pair. *)
Definition GetEdge (g : TaskfileGraph) (source target : string)
  : error + Edge.t :=
  match find (isEdge source target) (edges g) with
  | Some e => inr e
  | None => inl ErrEdgeNotFound
  end.

(** Modelled from the spec: is there a path [from] ~> [to] along the
    edges [es]?  The search leaves a vertex at most once: after
    following an edge out of [from] it drops every edge that starts
    there, so [fuel] greater than the number of edges suffices. *)
Fixpoint reaches (fuel : nat) (es : list Edge.t) (from to : string) : bool :=
  (from =? to) ||
  match fuel with
  | 0 => false
  | S fuel' =>
      let rest := filter (fun e => negb (Edge.Source e =? from)) es in
      existsb (fun e => (Edge.Source e =? from)
                        && reaches fuel' rest (Edge.Target e) to) es
  end.

(** Modelled from the spec: would the edge [source -> target] create
    a path back to an ancestor, that is, does [target] already reach
    [source]? *)
Definition CreatesCycle (g : TaskfileGraph) (source target : string) : bool :=
  reaches (S (List.length (edges g))) (edges g) target source.

(** Modelled from the spec: [AddEdge].  The cycle check is part of the
    insertion: an edge that would close a cycle is refused with
    [ErrEdgeCreatesCycle] and the graph is left as it was. *)
Definition AddEdge (g : TaskfileGraph) (source target : string)
    (data : list Include.t) (weight : nat) : error + TaskfileGraph :=
  match GetEdge g source target with
  | inr _ => inl ErrEdgeAlreadyExists
  | inl _ =>
      if CreatesCycle g source target then inl ErrEdgeCreatesCycle
      else inr (mkGraph (vertices g)
                        (edges g ++ [Edge.mk source target data weight]))
  end.

(** Modelled from the spec: [UpdateEdge] replaces the properties of
    the edge between the pair. *)
Definition UpdateEdge (g : TaskfileGraph) (source target : string)
    (data : list Include.t) (weight : nat) : error + TaskfileGraph :=
  match GetEdge g source target with
  | inl err => inl err
  | inr _ =>
      inr (mkGraph (vertices g)
             (map (fun e => if isEdge source target e
                            then Edge.mk source target data weight else e)
                  (edges g)))
  end.

(** The vertex pointer is shared with the graph: assigning its
    [Taskfile] field updates the vertex stored under [uri]. *)
Definition setVertexTaskfile (g : TaskfileGraph) (uri : string)
    (tf : option Taskfile.t) : TaskfileGraph :=
  mkGraph (map (fun v => if TaskfileVertex.URI v =? uri
                         then TaskfileVertex.mk uri tf else v)
               (vertices g))
          (edges g).

(** Lines 289-316 of [include], the critical section under the graph
    lock: look the edge up, create it or extend it, and turn a refused
    cycle into a [TaskfileCycleError] naming the pair. *)
Definition linkEdge (g : TaskfileGraph) (source target : string)
    (include : Include.t) : TaskfileGraph * option error :=
  let res :=
    match GetEdge g source target with
    | inl ErrEdgeNotFound =>
        AddEdge g source target [include] 1
    | inl _ =>
        (* the else branch with the zero edge; the lookup of this
           graph reports no error but ErrEdgeNotFound *)
        let edgeData := [] ++ [include] in
        UpdateEdge g source target edgeData (List.length edgeData)
    | inr edge =>
        let edgeData := Edge.Data edge ++ [include] in
        UpdateEdge g source target edgeData (List.length edgeData)
    end in
  match res with
  | inr g' => (g', None)
  | inl err =>
      if Is_ErrEdgeCreatesCycle err
      then (g, Some (TaskfileCycleError source target))
      else (g, Some err)
  end.

(** ** The collaborators of the reader *)

Module templater.
(** [templater.Cache]: the variables a template is rendered with and
    the first error met while rendering. *)
Record Cache : Type := mkCache {
  Vars : Vars;
  err : option error
}.
End templater.

(** [fmt.Sprintf(format, a)] with its one argument, kept symbolic. *)
Record message : Type := Sprintf {
  format : string;
  arg : string
}.

(** The operations of the content cache that report an error. *)
Inductive cache_op : Type := op_read | op_write | op_writeChecksum.

(** Everything outside the reader: the process environment, the
    template engine, the nodes (the file system and the network), the
    YAML decoder, the snippet renderer and the storage under the cache.
    A run of the reader is a function of one such world. *)
Record World : Type := mkWorld {
  (* env.GetEnviron() *)
  GetEnviron : Vars;
  (* templater.Replace and templater.ReplaceVars *)
  Replace : string -> templater.Cache -> string * templater.Cache;
  ReplaceVars : Vars -> templater.Cache -> Vars * templater.Cache;
  (* node.ResolveEntrypoint, node.ResolveDir, NewNode(.., WithParent(node)) *)
  ResolveEntrypoint : Node.t -> string -> error + string;
  ResolveDir : Node.t -> string -> error + string;
  NewNode : string -> string -> bool -> Duration -> Node.t -> error + Node.t;
  (* node.Read(ctx) *)
  Read_ : Node.t -> error + bytes;
  (* yaml.Unmarshal(b, &tf) *)
  Unmarshal : bytes -> error + Taskfile.t;
  (* NewSnippet(b, WithLine, WithColumn, WithPadding).String() *)
  NewSnippet : bytes -> nat -> nat -> nat -> string;
  (* filepathext.TryAbsToRel *)
  TryAbsToRel : string -> string;
  (* checksum(b) *)
  checksum : bytes -> string;
  (* NewCache(dir): the error of creating the cache directory, if any *)
  NewCache : string -> option error;
  (* the input/output errors of the cache's storage *)
  fault : cache_op -> string -> option error
}.

(** Modelled from the spec: [vars.Merge(other, nil)], the bindings of
    [other] override those of [vars] (the code of [ast.Vars] is not
    among the sources). *)
Definition Merge (vars other : Vars) : Vars :=
  filter (fun kv => negb (existsb (fun kv' => fst kv' =? fst kv) other)) vars
  ++ other.

Module Cache.
(** Modelled from the spec: the content cache, one content blob and
    one checksum record per Location identity, each read and written
    on its own (the code of [Cache] is not among the sources). *)
Record t : Type := mk {
  content : list (string * bytes);
  checksums : list (string * string)
}.

Definition empty : t := mk [] [].

Fixpoint lookup {A : Type} (key : string) (l : list (string * A)) : option A :=
  match l with
  | [] => None
  | (k, v) :: rest => if k =? key then Some v else lookup key rest
  end.

Definition store {A : Type} (key : string) (v : A) (l : list (string * A))
  : list (string * A) :=
  (key, v) :: filter (fun kv => negb (fst kv =? key)) l.
End Cache.

(** What the reader does to the outside, in order. *)
Inductive event : Type :=
| EvReadNode (location : string)          (* readNode(node) entered *)
| EvNodeRead (location : string)          (* node.Read(ctx) *)
| EvCacheRead (location : string)         (* cache.read(node) *)
| EvChecksum (b : bytes)                  (* checksum(b) *)
| EvReadChecksum (location : string)      (* cache.readChecksum(node) *)
| EvWriteChecksum (location sum : string) (* cache.writeChecksum(node, sum) *)
| EvCacheWrite (location : string) (b : bytes) (* cache.write(node, b) *)
| EvUnmarshal (b : bytes)                 (* yaml.Unmarshal(b, &tf) *)
| EvPrompt (msg : message) (shown : bool) (* r.promptf: shown iff a promptFunc is set *)
| EvDebug (msg : message) (shown : bool). (* r.debugf: shown iff a debugFunc is set *)

(** [PromptFunc]: [None] accepts the prompt, [Some err] rejects it. *)
Definition PromptFunc := message -> option error.

(** The configuration of a [Reader] ([graph] and [promptMutex] live in
    the state of a run).  [debugFunc] only says whether a debug
    function is set: what it does with a message is outside. *)
Record Reader : Type := mkReader {
  node : Node.t;
  insecure : bool;
  download : bool;
  offline : bool;
  timeout : Duration;
  tempDir : string;
  debugFunc : bool;
  promptFunc : option PromptFunc
}.

(** [time.Second * 10]. *)
Definition tenSeconds : Duration := (10 * 1000000000)%N.

(** [NewReader(node)] with no option. *)
Definition NewReader (node : Node.t) (osTempDir : string) : Reader :=
  mkReader node false false false tenSeconds osTempDir false None.

Definition taskfileUntrustedPrompt : string :=
  "The task you are attempting to run depends on the remote Taskfile at %q.
--- Make sure you trust the source of this Taskfile before continuing ---
Continue?".

Definition taskfileChangedPrompt : string :=
  "The Taskfile at %q has changed since you last used it!
--- Make sure you trust the source of this Taskfile before continuing ---
Continue?".

(** ** Sequential code: a state and error monad

    [loadNodeContent] and [readNode] thread the content cache and the
    trace of events, and stop at the first error. *)

Record store : Type := mkStore {
  cache : Cache.t;
  trace : list event
}.

Definition M (A : Type) : Type := store -> (error + A) * store.

Definition ret {A : Type} (a : A) : M A := fun s => (inr a, s).

Definition fail {A : Type} (err : error) : M A := fun s => (inl err, s).

Definition bind {A B : Type} (m : M A) (k : A -> M B) : M B :=
  fun s => match m s with
           | (inl err, s') => (inl err, s')
           | (inr a, s') => k a s'
           end.

(** Run [m] and hand its error to the caller instead of stopping. *)
Definition attempt {A : Type} (m : M A) : M (error + A) :=
  fun s => match m s with (res, s') => (inr res, s') end.

Definition emit (ev : event) : M unit :=
  fun s => (inr tt, mkStore (cache s) (trace s ++ [ev])).

Definition getCache : M Cache.t := fun s => (inr (cache s), s).

Definition putCache (c : Cache.t) : M unit :=
  fun s => (inr tt, mkStore c (trace s)).

Definition lift {A : Type} (res : error + A) : M A := fun s => (res, s).

Declare Scope go_scope.
Delimit Scope go_scope with go.
Notation "x <- m ;; k" := (bind m (fun x => k))
  (at level 61, m at next level, right associativity) : go_scope.
Notation "m ;; k" := (bind m (fun _ => k))
  (at level 61, right associativity) : go_scope.
Open Scope go_scope.

(** [node.Read(ctx)]. *)
Definition nodeRead (w : World) (node : Node.t) : M bytes :=
  emit (EvNodeRead (Node.Location node)) ;; lift (Read_ w node).

(** Modelled from the spec: what [cache.read(node)] returns for the
    cache [c]: the cached content, or [os.ErrNotExist] when there is
    none. *)
Definition readCached (w : World) (c : Cache.t) (node : Node.t)
  : error + bytes :=
  match fault w op_read (Node.Location node) with
  | Some err => inl err
  | None =>
      match Cache.lookup (Node.Location node) (Cache.content c) with
      | Some b => inr b
      | None => inl ErrNotExist
      end
  end.

(** [cache.read(node)]. *)
Definition cacheRead (w : World) (node : Node.t) : M bytes :=
  emit (EvCacheRead (Node.Location node)) ;;
  c <- getCache ;;
  lift (readCached w c node).

(** Modelled from the spec: [cache.write(node, b)]. *)
Definition cacheWrite (w : World) (node : Node.t) (b : bytes) : M unit :=
  emit (EvCacheWrite (Node.Location node) b) ;;
  c <- getCache ;;
  match fault w op_write (Node.Location node) with
  | Some err => fail err
  | None =>
      putCache (Cache.mk (Cache.store (Node.Location node) b (Cache.content c))
                         (Cache.checksums c))
  end.

(** Modelled from the spec: what [cache.readChecksum(node)] returns
    for the cache [c]: the recorded checksum, or the empty string when
    none is recorded. *)
Definition readChecksum (c : Cache.t) (node : Node.t) : string :=
  match Cache.lookup (Node.Location node) (Cache.checksums c) with
  | Some sum => sum
  | None => ""
  end.

(** [cache.readChecksum(node)]. *)
Definition cacheReadChecksum (node : Node.t) : M string :=
  emit (EvReadChecksum (Node.Location node)) ;;
  c <- getCache ;;
  ret (readChecksum c node).

(** Modelled from the spec: [cache.writeChecksum(node, sum)]. *)
Definition cacheWriteChecksum (w : World) (node : Node.t) (sum : string)
  : M unit :=
  emit (EvWriteChecksum (Node.Location node) sum) ;;
  c <- getCache ;;
  match fault w op_writeChecksum (Node.Location node) with
  | Some err => fail err
  | None =>
      putCache (Cache.mk (Cache.content c)
                         (Cache.store (Node.Location node) sum (Cache.checksums c)))
  end.

(** [checksum(b)]. *)
Definition computeChecksum (w : World) (b : bytes) : M string :=
  emit (EvChecksum b) ;; ret (checksum w b).

(** [r.debugf(format, a)]: the message goes to [r.debugFunc] when one
    is set. *)
Definition debugf (r : Reader) (format a : string) : M unit :=
  emit (EvDebug (Sprintf format a) (debugFunc r)).

(** [r.promptf(format, a)]: asks [r.promptFunc] when one is set, and
    accepts otherwise. *)
Definition promptf (r : Reader) (format a : string) : M (option error) :=
  match promptFunc r with
  | Some f => emit (EvPrompt (Sprintf format a) true) ;; ret (f (Sprintf format a))
  | None => emit (EvPrompt (Sprintf format a) false) ;; ret None
  end.

(** Lines 423-430: which prompt, if any, the fetched content needs. *)
Definition choosePrompt (sum cachedChecksum : string) : string :=
  if cachedChecksum =? "" then taskfileUntrustedPrompt
  else if negb (sum =? cachedChecksum) then taskfileChangedPrompt
  else "".

(** [Reader.loadNodeContent]. *)
Definition loadNodeContent (w : World) (r : Reader) (node : Node.t) : M bytes :=
  if negb (Node.Remote node) then
    nodeRead w node
  else
    match NewCache w (tempDir r) with
    | Some err => fail err
    | None =>
        if offline r then
          (* In offline mode try to use cached copy *)
          res <- attempt (cacheRead w node) ;;
          match res with
          | inl err =>
              if Is_ErrNotExist err
              then fail (TaskfileCacheNotFoundError (Node.Location node))
              else fail err
          | inr cached =>
              debugf r "task: [%s] Fetched cached copy\n" (Node.Location node) ;;
              ret cached
          end
        else
          res <- attempt (nodeRead w node) ;;
          match res with
          | inl err =>
              if Is_TaskfileNetworkTimeoutError err then
                (* If a download was requested, then we can't use a cached copy *)
                if download r then
                  fail (TaskfileNetworkTimeoutError (Node.Location node) (timeout r) false)
                else
                  (* Search for any cached copies *)
                  res' <- attempt (cacheRead w node) ;;
                  match res' with
                  | inl err' =>
                      if Is_ErrNotExist err'
                      then fail (TaskfileNetworkTimeoutError
                                   (Node.Location node) (timeout r) true)
                      else fail err'
                  | inr cached =>
                      debugf r "task: [%s] Network timeout. Fetched cached copy\n"
                             (Node.Location node) ;;
                      ret cached
                  end
              else fail err
          | inr b =>
              debugf r "task: [%s] Fetched remote copy\n" (Node.Location node) ;;
              (* Get the checksums *)
              sum <- computeChecksum w b ;;
              cachedChecksum <- cacheReadChecksum node ;;
              let prompt := choosePrompt sum cachedChecksum in
              (if negb (prompt =? "") then
                 answer <- promptf r prompt (Node.Location node) ;;
                 match answer with
                 | Some _ => fail (TaskfileNotTrustedError (Node.Location node))
                 | None =>
                     (* Store the checksum *)
                     cacheWriteChecksum w node sum ;;
                     (* Cache the file *)
                     debugf r "task: [%s] Caching downloaded file\n"
                            (Node.Location node) ;;
                     cacheWrite w node b
                 end
               else ret tt) ;;
              ret b
          end
    end.

(** Lines 352-361, the body of the loop for one value of the tasks
    mapping.  [task] is the loop variable, a copy of the pointer in the
    mapping: when it is nil, the fresh [&ast.Task{}] is bound to the
    variable only, stamped, and dropped with it; a task behind a
    non-nil pointer is stamped in place. *)
Definition stampTask (location : string) (task : option Task.t)
  : option Task.t :=
  match task with
  | None =>
      let task' := Task.zero in
      let _ := if Location.Taskfile (Task.Location task') =? ""
               then Task.setTaskfile location task' else task' in
      None
  | Some t =>
      if Location.Taskfile (Task.Location t) =? ""
      then Some (Task.setTaskfile location t)
      else Some t
  end.

(** [Reader.readNode]. *)
Definition readNode (w : World) (r : Reader) (node : Node.t) : M Taskfile.t :=
  emit (EvReadNode (Node.Location node)) ;;
  b <- loadNodeContent w r node ;;
  emit (EvUnmarshal b) ;;
  match Unmarshal w b with
  | inl err =>
      (* Decode the taskfile and add the file info the any errors *)
      match As_TaskfileDecodeError err with
      | Some (line, column) =>
          let snippet := NewSnippet w b line column 2 in
          fail (TaskfileDecodeError line column (Node.Location node) snippet)
      | None =>
          fail (TaskfileInvalidError (TryAbsToRel w (Node.Location node)) err)
      end
  | inr tf =>
      (* Check that the Taskfile is set and has a schema version *)
      match Taskfile.Version tf with
      | None => fail (TaskfileVersionCheckError (Node.Location node))
      | Some _ =>
          (* Set the taskfile/task's locations *)
          let location := Node.Location node in
          ret (Taskfile.mk location
                 (Taskfile.Version tf)
                 (Taskfile.Vars tf)
                 (map (fun nt => (fst nt, stampTask location (snd nt)))
                      (Taskfile.Tasks tf))
                 (Taskfile.Includes tf))
      end
  end.

(** ** The goroutines of [include] *)

(** The outcome of lines 246-281, the part of a goroutine before it
    recurses: an error, the silent return of an optional include whose
    node cannot be built, or the resolved declaration and its node. *)
Inductive resolved : Type :=
| Rerr (err : error)
| Rskip
| Rnode (include : Include.t) (includeNode : Node.t).

(** Lines 246-258 of [include]: the declaration with its templates
    rendered, and the templater's cache with the first error met. *)
Definition renderInclude (w : World) (vars : Vars) (include : Include.t)
  : Include.t * templater.Cache :=
  let cache := templater.mkCache vars None in
  let '(taskfile, cache) := Replace w (Include.Taskfile include) cache in
  let '(dir, cache) := Replace w (Include.Dir include) cache in
  let '(ivars, cache) := ReplaceVars w (Include.Vars include) cache in
  (Include.mk (Include.Namespace include) taskfile dir
              (Include.Optional include) (Include.Internal include)
              (Include.Flatten include) (Include.Aliases include)
              (Include.AdvancedImport include) (Include.Excludes include)
              ivars,
   cache).

(** [include.Dir = dir]. *)
Definition setDir (dir : string) (include : Include.t) : Include.t :=
  Include.mk (Include.Namespace include) (Include.Taskfile include) dir
             (Include.Optional include) (Include.Internal include)
             (Include.Flatten include) (Include.Aliases include)
             (Include.AdvancedImport include) (Include.Excludes include)
             (Include.Vars include).

(** Lines 246-281 of [include]. *)
Definition resolveInclude (w : World) (r : Reader) (node : Node.t)
    (vars : Vars) (include : Include.t) : resolved :=
  let '(include, cache) := renderInclude w vars include in
  match templater.err cache with
  | Some err => Rerr err
  | None =>
      match ResolveEntrypoint w node (Include.Taskfile include) with
      | inl err => Rerr err
      | inr entrypoint =>
          match ResolveDir w node (Include.Dir include) with
          | inl err => Rerr err
          | inr dir =>
              let include := setDir dir include in
              match NewNode w entrypoint (Include.Dir include)
                            (insecure r) (timeout r) node with
              | inl err => if Include.Optional include then Rskip else Rerr err
              | inr includeNode => Rnode include includeNode
              end
          end
      end
  end.

(** Who runs a call of [include]: [Read] itself for the root node, or
    the goroutine that goroutine [parent] started at line 245 for the
    declaration [include] of the document at [node], with the merged
    variables [vars] of lines 242-243. *)
Inductive owner : Type :=
| ByRead
| ByGo (parent : nat) (node : Node.t) (vars : Vars) (include : Include.t).

(** Where a goroutine stands. *)
Inductive stage : Type :=
| Spawned                                   (* line 245: started, nothing run yet *)
| Including (n : Node.t)                    (* line 214: r.include(n) entered *)
| Reading (n : Node.t)                      (* line 232: the vertex is in, readNode next *)
| Waiting (n : Node.t) (gerr : option error) (* line 321: g.Wait(); gerr is the group's error *)
| Linking (n : Node.t)                      (* line 289: r.include(n) returned nil *)
| Returned (res : option error).            (* the goroutine's function returned *)

Record goroutine : Type := mkGoroutine {
  owned : owner;
  at_ : stage
}.

(** A state of a run: the reader's graph, the cache and the trace, the
    goroutines started so far, and the errors that branches raised, in
    the order they were raised (an error passed up by [g.Wait()] is
    not raised again). *)
Record state : Type := mkState {
  graph : TaskfileGraph;
  mem : store;
  pool : list goroutine;
  failures : list error
}.

Fixpoint update {A : Type} (i : nat) (f : A -> A) (l : list A) : list A :=
  match l, i with
  | [], _ => []
  | x :: rest, 0 => f x :: rest
  | x :: rest, S i' => x :: update i' f rest
  end.

Definition setStage (i : nat) (st : stage) (p : list goroutine)
  : list goroutine :=
  update i (fun t => mkGoroutine (owned t) st) p.

(** [errgroup]: the first error a goroutine of the group returns is
    the one [g.Wait()] reports. *)
Definition report (parent : nat) (err : error) (p : list goroutine)
  : list goroutine :=
  update parent
    (fun t => match at_ t with
              | Waiting n None => mkGoroutine (owned t) (Waiting n (Some err))
              | _ => t
              end) p.

(** The function of goroutine [i] returns [res]. *)
Definition goReturn (i : nat) (t : goroutine) (res : option error)
    (p : list goroutine) : list goroutine :=
  let p := setStage i (Returned res) p in
  match res, owned t with
  | Some err, ByGo parent _ _ _ => report parent err p
  | _, _ => p
  end.

(** The call [r.include(n)] of goroutine [i] returns [res]: to [Read]
    for the root, to line 284 of the goroutine otherwise. *)
Definition includeReturn (i : nat) (t : goroutine) (n : Node.t)
    (res : option error) (p : list goroutine) : list goroutine :=
  match owned t, res with
  | ByGo _ _ _ _, None => setStage i (Linking n) p
  | _, _ => goReturn i t res p
  end.

Definition isReturned (st : stage) : bool :=
  match st with Returned _ => true | _ => false end.

(** Has every goroutine that [i] started returned? *)
Definition childrenReturned (i : nat) (p : list goroutine) : bool :=
  forallb (fun t => match owned t with
                    | ByGo parent _ _ _ =>
                        negb (parent =? i)%nat || isReturned (at_ t)
                    | ByRead => true
                    end) p.

(** One atomic step of goroutine [i]; a goroutine that cannot move
    (it waits for its group, or has returned) leaves the state as it
    is.  The steps are the places where goroutines meet: [AddVertex]
    and the critical section of lines 289-316 are atomic under the
    locks of the graph; [readNode] is one step because a location is
    read by the one goroutine that inserted its vertex, so that two
    reads never share a cache entry, and prompts are serialized by
    [promptMutex]; starting the goroutines of the loop of lines
    241-318 has no effect of its own and is folded into the step that
    enters [g.Wait()]. *)
Definition step (w : World) (r : Reader) (i : nat) (s : state) : state :=
  match nth_error (pool s) i with
  | None => s
  | Some t =>
      match at_ t with
      | Spawned =>
          match owned t with
          | ByRead => s
          | ByGo parent nd vars include =>
              match resolveInclude w r nd vars include with
              | Rerr err =>
                  mkState (graph s) (mem s)
                          (goReturn i t (Some err) (pool s))
                          (failures s ++ [err])
              | Rskip =>
                  mkState (graph s) (mem s)
                          (goReturn i t None (pool s)) (failures s)
              | Rnode include' includeNode =>
                  mkState (graph s) (mem s)
                          (update i (fun _ => mkGoroutine
                                                (ByGo parent nd vars include')
                                                (Including includeNode))
                                  (pool s))
                          (failures s)
              end
          end
      | Including n =>
          (* lines 216-228 *)
          match AddVertex (graph s)
                          (TaskfileVertex.mk (Node.Location n) None) with
          | inl ErrVertexAlreadyExists =>
              mkState (graph s) (mem s)
                      (includeReturn i t n None (pool s)) (failures s)
          | inl err =>
              mkState (graph s) (mem s)
                      (includeReturn i t n (Some err) (pool s))
                      (failures s ++ [err])
          | inr g' =>
              mkState g' (mem s) (setStage i (Reading n) (pool s)) (failures s)
          end
      | Reading n =>
          (* lines 231-243 *)
          match readNode w r n (mem s) with
          | (inl err, m') =>
              mkState (graph s) m'
                      (includeReturn i t n (Some err) (pool s))
                      (failures s ++ [err])
          | (inr tf, m') =>
              let vars := Merge (GetEnviron w) (Taskfile.Vars tf) in
              mkState (setVertexTaskfile (graph s) (Node.Location n) (Some tf))
                      m'
                      (setStage i (Waiting n None) (pool s)
                       ++ map (fun include =>
                                 mkGoroutine (ByGo i n vars include) Spawned)
                              (Taskfile.Includes tf))
                      (failures s)
          end
      | Waiting n gerr =>
          (* line 321 *)
          if childrenReturned i (pool s)
          then mkState (graph s) (mem s)
                       (includeReturn i t n gerr (pool s)) (failures s)
          else s
      | Linking n =>
          (* lines 289-316 *)
          match owned t with
          | ByRead => s
          | ByGo _ nd _ include =>
              let '(g', res) :=
                linkEdge (graph s) (Node.Location nd) (Node.Location n) include in
              mkState g' (mem s) (goReturn i t res (pool s))
                      (failures s ++ match res with
                                     | Some err => [err]
                                     | None => []
                                     end)
          end
      | Returned _ => s
      end
  end.

(** The state in which [Read] calls [r.include(r.node)], with the
    content cache [c] found on disk. *)
Definition start (r : Reader) (c : Cache.t) : state :=
  mkState NewTaskfileGraph (mkStore c [])
          [mkGoroutine ByRead (Including (node r))] [].

(** A schedule names the goroutine that moves next; a run follows a
    schedule from a state. *)
Definition run (w : World) (r : Reader) (sched : list nat) (s : state)
  : state :=
  fold_left (fun s i => step w r i s) sched s.

(** What [Read] hands to its caller once the root call has returned:
    the graph and no error, or no graph and the error.  [None] while
    the run is not over. *)
Definition ReadResult (s : state) : option (option TaskfileGraph * option error) :=
  match nth_error (pool s) 0 with
  | Some t =>
      match at_ t with
      | Returned (Some err) => Some (None, Some err)
      | Returned None => Some (Some (graph s), None)
      | _ => None
      end
  | None => None
  end.

(** [Reader.Read] along a schedule. *)
Definition Read (w : World) (r : Reader) (c : Cache.t) (sched : list nat)
  : option (option TaskfileGraph * option error) :=
  ReadResult (run w r sched (start r c)).

(** The schedule that always moves the oldest goroutine that can
    move, at most [fuel] times. *)
Definition canMove (s : state) (i : nat) : bool :=
  match nth_error (pool s) i with
  | Some t =>
      match at_ t with
      | Returned _ => false
      | Waiting _ _ => childrenReturned i (pool s)
      | _ => true
      end
  | None => false
  end.

Definition pick (s : state) : option nat :=
  find (canMove s) (seq 0 (List.length (pool s))).

Fixpoint oldestFirst (w : World) (r : Reader) (fuel : nat) (s : state)
  : list nat :=
  match fuel with
  | 0 => []
  | S fuel' =>
      match pick s with
      | Some i => i :: oldestFirst w r fuel' (step w r i s)
      | None => []
      end
  end.

(** ** Small worlds to run the reader in *)

Module Examples.

(** An include declaration of [taskfile] under [namespace]. *)
Definition inc (namespace taskfile : string) (optional : bool) : Include.t :=
  Include.mk namespace taskfile "" optional false false [] false [] [].

(** A version 3 document with the given includes. *)
Definition document (includes : list Include.t) : Taskfile.t :=
  Taskfile.mk "" (Some "3") [] [] includes.

(** A world of local files: [files] maps a path to its document; the
    content of a file is its own path, which the decoder maps back to
    the document.  Templates are plain text; an entrypoint resolves to
    itself unless it is listed in [unresolvable]; a node can be built
    for the files that exist; reading works unless the file is listed
    in [unreadable]. *)
Definition localWorld (files : list (string * Taskfile.t))
    (unresolvable unreadable : list string) : World :=
  mkWorld
    []
    (fun s c => (s, c))
    (fun v c => (v, c))
    (fun _ entrypoint =>
       if existsb (String.eqb entrypoint) unresolvable
       then inl (OtherError "cannot resolve entrypoint")
       else inr entrypoint)
    (fun _ dir => inr dir)
    (fun entrypoint _ _ _ _ =>
       match Cache.lookup entrypoint files with
       | Some _ => inr (Node.mk entrypoint false)
       | None => inl ErrNotExist
       end)
    (fun n =>
       if existsb (String.eqb (Node.Location n)) unreadable
       then inl (OtherError "permission denied")
       else inr (list_byte_of_string (Node.Location n)))
    (fun b => match Cache.lookup (string_of_list_byte b) files with
              | Some tf => inr tf
              | None => inl (OtherError "not a taskfile")
              end)
    (fun _ _ _ _ => "")
    (fun s => s)
    (fun b => string_of_list_byte b)
    (fun _ => None)
    (fun _ _ => None).

Definition reader (root : string) : Reader :=
  NewReader (Node.mk root false) "/tmp".

(** A includes B and B includes A. *)
Definition twoCycle : World :=
  localWorld [("A", document [inc "b" "B" false]);
              ("B", document [inc "a" "A" false])] [] [].

(** A includes itself and B; B includes A. *)
Definition twoRejections : World :=
  localWorld [("A", document [inc "self" "A" false; inc "b" "B" false]);
              ("B", document [inc "a" "A" false])] [] [].

(** A includes a file that does not exist, and itself. *)
Definition missingAndSelf : World :=
  localWorld [("A", document [inc "m" "missing.yml" false;
                              inc "self" "A" false])] [] [].

(** A includes B and C; B and C both include D. *)
Definition diamond : World :=
  localWorld [("A", document [inc "b" "B" false; inc "c" "C" false]);
              ("B", document [inc "d" "D" false]);
              ("C", document [inc "d" "D" false]);
              ("D", document [])] [] [].

(** A includes B through two declarations. *)
Definition twice : World :=
  localWorld [("A", document [inc "b1" "B" false; inc "b2" "B" false]);
              ("B", document [])] [] [].

(** A includes a file that does not exist. *)
Definition missing (optional : bool) : World :=
  localWorld [("A", document [inc "m" "missing.yml" optional])] [] [].

(** A has an optional include whose entrypoint cannot be resolved. *)
Definition unresolved : World :=
  localWorld [("A", document [inc "u" "${" true])] ["${"] [].

(** A has an optional include of a file that exists but cannot be
    read. *)
Definition unreadable : World :=
  localWorld [("A", document [inc "s" "secret.yml" true]);
              ("secret.yml", document [])] [] ["secret.yml"].

(** A world with one remote Taskfile, at [url]: [fetch] is what the
    network returns for it, [faults] the errors of the cache's
    storage.  The checksum of a content is its text. *)
Definition url : string := "https://example.com/Taskfile.yml".

Definition remoteWorld (fetch : error + bytes)
    (faults : cache_op -> option error) : World :=
  mkWorld
    []
    (fun s c => (s, c))
    (fun v c => (v, c))
    (fun _ entrypoint => inr entrypoint)
    (fun _ dir => inr dir)
    (fun entrypoint _ _ _ _ => inr (Node.mk entrypoint true))
    (fun _ => fetch)
    (fun _ => inr (document []))
    (fun _ _ _ _ => "")
    (fun s => s)
    (fun b => string_of_list_byte b)
    (fun _ => None)
    (fun op _ => faults op).

Definition noFault : cache_op -> option error := fun _ => None.

Definition remoteNode : Node.t := Node.mk url true.

Definition remoteReader (offline download : bool)
    (promptFunc : option PromptFunc) : Reader :=
  mkReader remoteNode false download offline tenSeconds "/tmp" true promptFunc.

Definition accept : PromptFunc := fun _ => None.

Definition reject : PromptFunc := fun _ => Some (OtherError "no").

Definition v1 : bytes := list_byte_of_string "version: 3".

Definition v2 : bytes := list_byte_of_string "version: 3 # changed".

(** The cache after [v1] was fetched and accepted. *)
Definition cachedV1 : Cache.t :=
  Cache.mk [(url, v1)] [(url, string_of_list_byte v1)].

(** A document whose [tasks] mapping has a null entry. *)
Definition nullTask : Taskfile.t :=
  Taskfile.mk "" (Some "3") []
    [("build", None); ("test", Some (Task.mk "test" (Location.mk 4 3 "")))] [].

Definition nullTaskWorld : World :=
  localWorld [("Taskfile.yml", nullTask)] [] [].

End Examples.

(** ** Reading a trace *)

(** The locations read from their node, in order. *)
Definition nodeReads (evs : list event) : list string :=
  flat_map (fun ev => match ev with EvNodeRead l => [l] | _ => [] end) evs.

(** The prompts issued, in order. *)
Definition prompts (evs : list event) : list message :=
  flat_map (fun ev => match ev with EvPrompt m _ => [m] | _ => [] end) evs.

(** The writes to the cache, in order. *)
Definition cacheWrites (evs : list event) : list event :=
  filter (fun ev => match ev with
                    | EvWriteChecksum _ _ | EvCacheWrite _ _ => true
                    | _ => false
                    end) evs.

(** The events of the trust gate: computing a checksum, reading the
    recorded one, prompting. *)
Definition trustGate (evs : list event) : list event :=
  filter (fun ev => match ev with
                    | EvChecksum _ | EvReadChecksum _ | EvPrompt _ _ => true
                    | _ => false
                    end) evs.

(** The locations handed to [readNode], in order. *)
Definition readNodes (evs : list event) : list string :=
  flat_map (fun ev => match ev with EvReadNode l => [l] | _ => [] end) evs.

(** The answer of the reader's prompt to [msg]: [None] accepts. *)
Definition answer (r : Reader) (msg : message) : option error :=
  match promptFunc r with
  | Some f => f msg
  | None => None
  end.

(** ** Properties of the graph and of a run *)

(** [a -> b] is an edge of [es]. *)
Definition edgeRel (es : list Edge.t) (a b : string) : Prop :=
  exists e, In e es /\ Edge.Source e = a /\ Edge.Target e = b.

(** A path [a ~> b], possibly empty, along the edges [es]. *)
Definition path (es : list Edge.t) : string -> string -> Prop :=
  clos_refl_trans_1n string (edgeRel es).

(** No edge lies on a cycle (a loop counts as a cycle). *)
Definition acyclic (es : list Edge.t) : Prop :=
  forall a b, edgeRel es a b -> path es b a -> False.

(** The edges that do not start at [a]. *)
Definition away (a : string) (es : list Edge.t) : list Edge.t :=
  filter (fun e => negb (Edge.Source e =? a)) es.

Definition edgeKey (e : Edge.t) : string * string :=
  (Edge.Source e, Edge.Target e).

(** The weight of an edge is the length of its payload, which is not
    empty. *)
Definition weighted (e : Edge.t) : Prop :=
  Edge.Weight e = List.length (Edge.Data e) /\ 1 <= Edge.Weight e.

(** What holds of the graph in every state of a run: one vertex per
    identity, one edge per ordered pair, every weight the length of
    its payload, and no cycle. *)
Record wellFormed (g : TaskfileGraph) : Prop := mkWellFormed {
  wf_vertices : NoDup (map TaskfileVertex.URI (vertices g));
  wf_edges : NoDup (map edgeKey (edges g));
  wf_weights : Forall weighted (edges g);
  wf_acyclic : acyclic (edges g)
}.

(** The moves of goroutine [i], standing at [t], from a state [s]:
    [step] read as a relation, one rule per branch. *)
Inductive moves (w : World) (r : Reader) (i : nat) (t : goroutine) (s : state)
  : state -> Prop :=
| move_resolve_error : forall parent nd vars include err,
    at_ t = Spawned -> owned t = ByGo parent nd vars include ->
    resolveInclude w r nd vars include = Rerr err ->
    moves w r i t s
      (mkState (graph s) (mem s) (goReturn i t (Some err) (pool s))
               (failures s ++ [err]))
| move_resolve_skip : forall parent nd vars include,
    at_ t = Spawned -> owned t = ByGo parent nd vars include ->
    resolveInclude w r nd vars include = Rskip ->
    moves w r i t s
      (mkState (graph s) (mem s) (goReturn i t None (pool s)) (failures s))
| move_resolve_node : forall parent nd vars include include' includeNode,
    at_ t = Spawned -> owned t = ByGo parent nd vars include ->
    resolveInclude w r nd vars include = Rnode include' includeNode ->
    moves w r i t s
      (mkState (graph s) (mem s)
               (update i (fun _ => mkGoroutine (ByGo parent nd vars include')
                                               (Including includeNode))
                       (pool s))
               (failures s))
| move_vertex_exists : forall n,
    at_ t = Including n ->
    AddVertex (graph s) (TaskfileVertex.mk (Node.Location n) None)
      = inl ErrVertexAlreadyExists ->
    moves w r i t s
      (mkState (graph s) (mem s) (includeReturn i t n None (pool s))
               (failures s))
| move_vertex_added : forall n g',
    at_ t = Including n ->
    AddVertex (graph s) (TaskfileVertex.mk (Node.Location n) None) = inr g' ->
    moves w r i t s
      (mkState g' (mem s) (setStage i (Reading n) (pool s)) (failures s))
| move_read_error : forall n err m',
    at_ t = Reading n ->
    readNode w r n (mem s) = (inl err, m') ->
    moves w r i t s
      (mkState (graph s) m' (includeReturn i t n (Some err) (pool s))
               (failures s ++ [err]))
| move_read : forall n tf m',
    at_ t = Reading n ->
    readNode w r n (mem s) = (inr tf, m') ->
    moves w r i t s
      (mkState (setVertexTaskfile (graph s) (Node.Location n) (Some tf)) m'
               (setStage i (Waiting n None) (pool s)
                ++ map (fun include =>
                          mkGoroutine
                            (ByGo i n (Merge (GetEnviron w) (Taskfile.Vars tf))
                                  include)
                            Spawned)
                       (Taskfile.Includes tf))
               (failures s))
| move_join : forall n gerr,
    at_ t = Waiting n gerr ->
    childrenReturned i (pool s) = true ->
    moves w r i t s
      (mkState (graph s) (mem s) (includeReturn i t n gerr (pool s))
               (failures s))
| move_link : forall parent nd vars include n,
    at_ t = Linking n -> owned t = ByGo parent nd vars include ->
    moves w r i t s
      (mkState (fst (linkEdge (graph s) (Node.Location nd) (Node.Location n)
                              include))
               (mem s)
               (goReturn i t
                  (snd (linkEdge (graph s) (Node.Location nd) (Node.Location n)
                                 include))
                  (pool s))
               (failures s
                ++ match snd (linkEdge (graph s) (Node.Location nd)
                                       (Node.Location n) include) with
                   | Some err => [err]
                   | None => []
                   end)).

(** The states a run can be in. *)
Definition reachable (w : World) (r : Reader) (c : Cache.t) (s : state) : Prop :=
  exists sched, s = run w r sched (start r c).

(** The goroutine that started the owner's goroutine, if any. *)
Definition parentOf (o : owner) : option nat :=
  match o with
  | ByRead => None
  | ByGo parent _ _ _ => Some parent
  end.

(** The error a goroutine holds: the error of its group while it
    waits, its result once it has returned. *)
Definition heldError (st : stage) : option error :=
  match st with
  | Waiting _ gerr => gerr
  | Returned res => res
  | _ => None
  end.

Definition failed (st : stage) : bool :=
  match heldError st with Some _ => true | None => false end.

(** How the goroutines of a run hang together: goroutine 0 is the
    call made by [Read] and every other one was started by an older
    goroutine; a goroutine that has not returned was started by one
    that waits for its group; the error a goroutine returned is known
    to the group that started it; every error held was raised by some
    branch; and a raised error made its goroutine return. *)
Record orderly (s : state) : Prop := mkOrderly {
  ord_root : exists t0, nth_error (pool s) 0 = Some t0 /\ owned t0 = ByRead;
  ord_only_root : forall i t,
    nth_error (pool s) i = Some t -> owned t = ByRead -> i = 0;
  ord_parent : forall i t p,
    nth_error (pool s) i = Some t -> parentOf (owned t) = Some p -> p < i;
  ord_waiting : forall i t p,
    nth_error (pool s) i = Some t -> parentOf (owned t) = Some p ->
    isReturned (at_ t) = false ->
    exists tp n gerr, nth_error (pool s) p = Some tp /\ at_ tp = Waiting n gerr;
  ord_reported : forall i t p err,
    nth_error (pool s) i = Some t -> parentOf (owned t) = Some p ->
    at_ t = Returned (Some err) ->
    exists tp, nth_error (pool s) p = Some tp /\ failed (at_ tp) = true;
  ord_held : forall i t err,
    nth_error (pool s) i = Some t -> heldError (at_ t) = Some err ->
    In err (failures s);
  ord_raised : failures s <> [] ->
    exists i t err, nth_error (pool s) i = Some t /\ at_ t = Returned (Some err)
}.

(** [err] reaches a goroutine that waits for its group. *)
Definition reportTo (err : error) (t : goroutine) : goroutine :=
  match at_ t with
  | Waiting n None => mkGoroutine (owned t) (Waiting n (Some err))
  | _ => t
  end.

(** The four ways a move of goroutine [i], standing at [t], changes
    the pool and the raised errors: the mover advances without
    returning, it starts its group and waits, it returns nil, or it
    returns an error (one it raises, or the error of its group), which
    is reported to the group it belongs to. *)
Inductive changes (i : nat) (t : goroutine) (s s' : state) : Prop :=
| ch_advance : forall o' st',
    parentOf o' = parentOf (owned t) ->
    (o' = ByRead <-> owned t = ByRead) ->
    isReturned st' = false -> heldError st' = None ->
    (forall n gerr, st' <> Waiting n gerr) ->
    heldError (at_ t) = None ->
    pool s' = update i (fun _ => mkGoroutine o' st') (pool s) ->
    failures s' = failures s ->
    changes i t s s'
| ch_spawn : forall n children,
    Forall (fun c => parentOf (owned c) = Some i /\ at_ c = Spawned) children ->
    heldError (at_ t) = None ->
    pool s' = update i (fun _ => mkGoroutine (owned t) (Waiting n None)) (pool s)
              ++ children ->
    failures s' = failures s ->
    changes i t s s'
| ch_return_nil :
    heldError (at_ t) = None ->
    pool s' = update i (fun _ => mkGoroutine (owned t) (Returned None)) (pool s) ->
    failures s' = failures s ->
    changes i t s s'
| ch_return_error : forall err,
    pool s' = match parentOf (owned t) with
              | Some parent => update parent (reportTo err)
              | None => fun p => p
              end (update i (fun _ => mkGoroutine (owned t) (Returned (Some err)))
                          (pool s)) ->
    failures s' = failures s ++ [err] \/
    (failures s' = failures s /\ heldError (at_ t) = Some err) ->
    changes i t s s'.

(** The location a goroutine is about to read, if it stands right
    before [readNode]. *)
Definition stageReads (st : stage) : list string :=
  match st with
  | Reading n => [Node.Location n]
  | _ => []
  end.

(** The locations whose vertex is in the graph and whose document is
    still to be read. *)
Definition pending (p : list goroutine) : list string :=
  flat_map (fun t => stageReads (at_ t)) p.

(** Every vertex of the graph belongs to a document that was handed
    to [readNode] once, or that a goroutine is about to hand to it. *)
Definition readOnce (s : state) : Prop :=
  Permutation (map TaskfileVertex.URI (vertices (graph s)))
              (readNodes (trace (mem s)) ++ pending (pool s)).

(** The root vertex is in the graph as soon as the root call has
    passed [AddVertex]. *)
Definition rootKept (r : Reader) (s : state) : Prop :=
  pool s = [mkGoroutine ByRead (Including (node r))] \/
  hasVertex (graph s) (Node.Location (node r)) = true.

(** An edge of the graph, as a caller sees it: the pair, the
    namespaces of the include declarations behind it, and the weight. *)
Definition edgeSummary (e : Edge.t) : string * string * list string * nat :=
  (Edge.Source e, Edge.Target e, map Include.Namespace (Edge.Data e),
   Edge.Weight e).

(** ** Enumerating the states of a run

    For a world with finitely many documents the states that the
    goroutines can reach are finitely many.  [explore] collects them
    breadth first, so that a property of every run in such a world can
    be checked on the collected states.  States are compared after a
    cheap fingerprint. *)

Definition error_eq_dec : forall a b : error, {a = b} + {a <> b}.
Proof.
  decide equality; auto using string_dec, Nat.eq_dec, bool_dec, N.eq_dec.
Defined.

Definition strings_eq_dec : forall a b : list string, {a = b} + {a <> b}.
Proof. apply list_eq_dec. apply string_dec. Defined.

Definition vars_eq_dec : forall a b : Vars, {a = b} + {a <> b}.
Proof. apply list_eq_dec. decide equality; apply string_dec. Defined.

Definition include_eq_dec : forall a b : Include.t, {a = b} + {a <> b}.
Proof.
  decide equality; auto using string_dec, bool_dec, vars_eq_dec, strings_eq_dec.
Defined.

Definition includes_eq_dec : forall a b : list Include.t, {a = b} + {a <> b}.
Proof. apply list_eq_dec. apply include_eq_dec. Defined.

Definition location_eq_dec : forall a b : Location.t, {a = b} + {a <> b}.
Proof. decide equality; auto using string_dec, Nat.eq_dec. Defined.

Definition task_eq_dec : forall a b : Task.t, {a = b} + {a <> b}.
Proof. decide equality; auto using string_dec, location_eq_dec. Defined.

Definition option_eq_dec (A : Type) (dec : forall a b : A, {a = b} + {a <> b})
  : forall a b : option A, {a = b} + {a <> b}.
Proof. decide equality. Defined.

Definition tasks_eq_dec :
  forall a b : list (string * option Task.t), {a = b} + {a <> b}.
Proof.
  apply list_eq_dec. decide equality;
    [apply option_eq_dec; apply task_eq_dec | apply string_dec].
Defined.

Definition ostring_eq_dec : forall a b : option string, {a = b} + {a <> b}.
Proof. apply option_eq_dec. apply string_dec. Defined.

Definition taskfile_eq_dec : forall a b : Taskfile.t, {a = b} + {a <> b}.
Proof.
  decide equality;
    auto using string_dec, vars_eq_dec, includes_eq_dec, ostring_eq_dec,
      tasks_eq_dec.
Defined.

Definition otaskfile_eq_dec : forall a b : option Taskfile.t, {a = b} + {a <> b}.
Proof. apply option_eq_dec. apply taskfile_eq_dec. Defined.

Definition node_eq_dec : forall a b : Node.t, {a = b} + {a <> b}.
Proof. decide equality; auto using string_dec, bool_dec. Defined.

Definition vertex_eq_dec : forall a b : TaskfileVertex.t, {a = b} + {a <> b}.
Proof. decide equality; auto using string_dec, otaskfile_eq_dec. Defined.

Definition edge_eq_dec : forall a b : Edge.t, {a = b} + {a <> b}.
Proof. decide equality; auto using string_dec, Nat.eq_dec, includes_eq_dec. Defined.

Definition vertices_eq_dec :
  forall a b : list TaskfileVertex.t, {a = b} + {a <> b}.
Proof. apply list_eq_dec. apply vertex_eq_dec. Defined.

Definition edges_eq_dec : forall a b : list Edge.t, {a = b} + {a <> b}.
Proof. apply list_eq_dec. apply edge_eq_dec. Defined.

Definition graph_eq_dec : forall a b : TaskfileGraph, {a = b} + {a <> b}.
Proof. decide equality; auto using vertices_eq_dec, edges_eq_dec. Defined.

Definition bytes_eq_dec : forall a b : bytes, {a = b} + {a <> b}.
Proof. apply list_eq_dec. apply Byte.byte_eq_dec. Defined.

Definition message_eq_dec : forall a b : message, {a = b} + {a <> b}.
Proof. decide equality; auto using string_dec. Defined.

Definition event_eq_dec : forall a b : event, {a = b} + {a <> b}.
Proof.
  decide equality; auto using string_dec, bytes_eq_dec, message_eq_dec, bool_dec.
Defined.

Definition events_eq_dec : forall a b : list event, {a = b} + {a <> b}.
Proof. apply list_eq_dec. apply event_eq_dec. Defined.

Definition content_eq_dec :
  forall a b : list (string * bytes), {a = b} + {a <> b}.
Proof.
  apply list_eq_dec. decide equality; auto using string_dec, bytes_eq_dec.
Defined.

Definition cache_eq_dec : forall a b : Cache.t, {a = b} + {a <> b}.
Proof. decide equality; auto using content_eq_dec, vars_eq_dec. Defined.

Definition store_eq_dec : forall a b : store, {a = b} + {a <> b}.
Proof. decide equality; auto using cache_eq_dec, events_eq_dec. Defined.

Definition owner_eq_dec : forall a b : owner, {a = b} + {a <> b}.
Proof.
  decide equality;
    auto using Nat.eq_dec, node_eq_dec, vars_eq_dec, include_eq_dec.
Defined.

Definition oerror_eq_dec : forall a b : option error, {a = b} + {a <> b}.
Proof. apply option_eq_dec. apply error_eq_dec. Defined.

Definition stage_eq_dec : forall a b : stage, {a = b} + {a <> b}.
Proof. decide equality; auto using node_eq_dec, oerror_eq_dec. Defined.

Definition goroutine_eq_dec : forall a b : goroutine, {a = b} + {a <> b}.
Proof. decide equality; auto using owner_eq_dec, stage_eq_dec. Defined.

Definition pool_eq_dec : forall a b : list goroutine, {a = b} + {a <> b}.
Proof. apply list_eq_dec. apply goroutine_eq_dec. Defined.

Definition errors_eq_dec : forall a b : list error, {a = b} + {a <> b}.
Proof. apply list_eq_dec. apply error_eq_dec. Defined.

Definition state_eq_dec : forall a b : state, {a = b} + {a <> b}.
Proof.
  decide equality;
    auto using graph_eq_dec, store_eq_dec, pool_eq_dec, errors_eq_dec.
Defined.

Definition ograph_eq_dec : forall a b : option TaskfileGraph, {a = b} + {a <> b}.
Proof. apply option_eq_dec. apply graph_eq_dec. Defined.

Definition stageCode (st : stage) : N :=
  match st with
  | Spawned => 0
  | Including _ => 1
  | Reading _ => 2
  | Waiting _ None => 3
  | Waiting _ (Some _) => 4
  | Linking _ => 5
  | Returned None => 6
  | Returned (Some _) => 7
  end%N.

Fixpoint digest (acc : N) (s : string) : N :=
  match s with
  | EmptyString => acc
  | String ch rest => digest (acc * 31 + N_of_ascii ch)%N rest
  end.

(** A few numbers that tell most states apart. *)
Definition fingerprint (s : state) : list N :=
  N.of_nat (List.length (trace (mem s)))
  :: N.of_nat (List.length (failures s))
  :: map (fun t => stageCode (at_ t)) (pool s)
  ++ map (fun e => digest (digest 7 (Edge.Source e)) (Edge.Target e))
         (edges (graph s))
  ++ map (fun v => digest 5 (TaskfileVertex.URI v)) (vertices (graph s)).

Fixpoint sameNumbers (a b : list N) : bool :=
  match a, b with
  | [], [] => true
  | x :: a', y :: b' => if (x =? y)%N then sameNumbers a' b' else false
  | _, _ => false
  end.

(** Is [s], with fingerprint [fp], among the states [seen]? *)
Fixpoint known (fp : list N) (s : state) (seen : list (list N * state)) : bool :=
  match seen with
  | [] => false
  | (fp', s') :: rest =>
      if sameNumbers fp fp'
      then (if state_eq_dec s s' then true else known fp s rest)
      else known fp s rest
  end.

Definition tagged (s : state) : list N * state := (fingerprint s, s).

(** The states reached from [frontier] that are not in [seen], added
    to [seen]. *)
Fixpoint explore (w : World) (r : Reader) (fuel : nat) (frontier : list state)
    (seen : list (list N * state)) : list (list N * state) :=
  match fuel with
  | 0 => seen
  | S fuel' =>
      match frontier with
      | [] => seen
      | s :: rest =>
          let next := map (fun i => tagged (step w r i s))
                          (seq 0 (List.length (pool s))) in
          let new :=
            fold_left (fun acc fs =>
                         if known (fst fs) (snd fs) seen then acc
                         else if known (fst fs) (snd fs) acc then acc
                              else fs :: acc)
                      next [] in
          explore w r fuel' (rest ++ map snd new) (new ++ seen)
      end
  end.

(** Does every step from a state of [seen] lead to a state of
    [seen]? *)
Definition closed (w : World) (r : Reader) (seen : list (list N * state)) : bool :=
  forallb (fun fs =>
             forallb (fun i => let s' := step w r i (snd fs) in
                               known (fingerprint s') s' seen)
                     (seq 0 (List.length (pool (snd fs)))))
          seen.

(** [ok] holds of all the states collected from the start of a run,
    and these are all the states of a run. *)
Definition everywhere (w : World) (r : Reader) (c : Cache.t) (fuel : nat)
    (ok : state -> bool) : bool :=
  let seen := explore w r fuel [start r c] [tagged (start r c)] in
  if known (fingerprint (start r c)) (start r c) seen then
    if closed w r seen then forallb (fun fs => ok (snd fs)) seen else false
  else false.

(** Is there an edge [source -> target] whose weight and payload
    length are both [weight]? *)
Definition hasEdge (g : TaskfileGraph) (source target : string) (weight : nat)
  : bool :=
  match GetEdge g source target with
  | inr e => if (Edge.Weight e =? weight)%nat
             then (List.length (Edge.Data e) =? weight)%nat else false
  | inl _ => false
  end.

(** Has [Read] returned the reader's graph and no error? *)
Definition succeeded (s : state) : bool :=
  match ReadResult s with
  | Some (Some g, None) => if graph_eq_dec g (graph s) then true else false
  | _ => false
  end.

(** Has [Read] returned no graph and the error [err]? *)
Definition failedWith (err : error) (s : state) : bool :=
  match ReadResult s with
  | Some (None, Some err') => if error_eq_dec err' err then true else false
  | _ => false
  end.

(** [ok] is required of the states in which [Read] has returned. *)
Definition atReturn (ok : state -> bool) (s : state) : bool :=
  match ReadResult s with
  | Some _ => ok s
  | None => true
  end.

(** * Theorems *)


(** ** Paths and cycles *)

Section Paths.

Variable es : list Edge.t.

Lemma path_refl : forall a, path es a a.
Proof. intro a. apply Relation_Operators.rt1n_refl. Qed.

Lemma path_step : forall a b c, edgeRel es a b -> path es b c -> path es a c.
Proof. intros a b c Hab Hbc. eapply Relation_Operators.rt1n_trans; eassumption. Qed.

Lemma path_trans : forall a b c, path es a b -> path es b c -> path es a c.
Proof.
  intros a b c Hab. induction Hab as [|a x b Hax _ IH]; intro Hbc.
  - exact Hbc.
  - eapply path_step; [exact Hax | exact (IH Hbc)].
Qed.

End Paths.

Lemma edgeRel_incl : forall es es' a b,
  incl es es' -> edgeRel es a b -> edgeRel es' a b.
Proof.
  intros es es' a b Hincl (e & Hin & Hs & Ht).
  exists e. split; [apply Hincl; exact Hin | split; assumption].
Qed.

Lemma path_incl : forall es es' a b,
  incl es es' -> path es a b -> path es' a b.
Proof.
  intros es es' a b Hincl Hp. induction Hp as [|a x b Hax _ IH].
  - apply path_refl.
  - eapply path_step; [eapply edgeRel_incl; eassumption | exact IH].
Qed.

Lemma away_incl : forall a es, incl (away a es) es.
Proof. intros a es e He. apply filter_In in He. tauto. Qed.

Lemma away_In : forall a es e,
  In e (away a es) <-> In e es /\ Edge.Source e <> a.
Proof.
  intros a es e. unfold away. rewrite filter_In, negb_true_iff, String.eqb_neq.
  reflexivity.
Qed.

Lemma away_shorter : forall a es e,
  In e es -> Edge.Source e = a -> List.length (away a es) < List.length es.
Proof.
  intros a es e. induction es as [|x rest IH]; intros Hin Hsrc.
  - destruct Hin.
  - simpl. destruct (Edge.Source x =? a) eqn:Hx; simpl.
    + pose proof (filter_length_le (fun e => negb (Edge.Source e =? a)) rest).
      unfold away in *. lia.
    + destruct Hin as [-> | Hin].
      * apply String.eqb_neq in Hx. contradiction.
      * specialize (IH Hin Hsrc). unfold away in *. lia.
Qed.

(** A path out of [x] either never leaves [a], or it can be cut at its
    last departure from [a]. *)
Lemma path_last_departure : forall es a x b,
  path es x b ->
  path (away a es) x b \/
  exists e, In e es /\ Edge.Source e = a /\ path (away a es) (Edge.Target e) b.
Proof.
  intros es a x b Hp. induction Hp as [|x y b Hxy _ IH].
  - left. apply path_refl.
  - destruct IH as [IH | IH]; [| right; exact IH].
    destruct Hxy as (e & Hin & Hs & Ht).
    destruct (string_dec x a) as [Heq | Hne].
    + right. exists e. subst. auto.
    + left. eapply path_step; [| exact IH].
      exists e. rewrite away_In. subst. auto.
Qed.

Lemma reaches_sound : forall fuel es a b,
  reaches fuel es a b = true -> path es a b.
Proof.
  induction fuel as [|fuel IH]; intros es a b H; simpl in H.
  - rewrite orb_false_r in H. apply String.eqb_eq in H. subst. apply path_refl.
  - apply orb_true_iff in H. destruct H as [H | H].
    + apply String.eqb_eq in H. subst. apply path_refl.
    + apply existsb_exists in H. destruct H as (e & Hin & H).
      apply andb_true_iff in H. destruct H as [Hs H].
      apply String.eqb_eq in Hs. apply IH in H.
      eapply path_step.
      * exists e. eauto.
      * eapply path_incl; [apply (away_incl a) | exact H].
Qed.

Lemma reaches_complete : forall fuel es a b,
  List.length es < fuel -> path es a b -> reaches fuel es a b = true.
Proof.
  induction fuel as [|fuel IH]; intros es a b Hlen Hp; [lia |].
  simpl. destruct (a =? b) eqn:Hab; [reflexivity |]. simpl.
  apply String.eqb_neq in Hab.
  destruct (path_last_departure es a a b Hp) as [Hq | (e & Hin & Hs & Hq)].
  - inversion Hq as [| y ? Hay _]; subst; [contradiction |].
    destruct Hay as (e & Hin & Hs & _). apply away_In in Hin. tauto.
  - apply existsb_exists. exists e. split; [exact Hin |].
    rewrite Hs, String.eqb_refl. simpl. apply IH; [| exact Hq].
    pose proof (away_shorter a es e Hin Hs) as Hlt. unfold away in Hlt. lia.
Qed.

(** The check of [AddEdge] decides exactly whether the target already
    reaches the source. *)
Lemma CreatesCycle_iff : forall g source target,
  CreatesCycle g source target = true <-> path (edges g) target source.
Proof.
  intros g source target. unfold CreatesCycle. split.
  - apply reaches_sound.
  - apply reaches_complete. lia.
Qed.

(** A path through the edges and one more edge [s -> d] either avoids
    the new edge or crosses it. *)
Lemma path_added_edge : forall es s d data weight x y,
  path (es ++ [Edge.mk s d data weight]) x y ->
  path es x y \/ (path es x s /\ path es d y).
Proof.
  intros es s d data weight x y Hp. induction Hp as [|x z y Hxz _ IH].
  - left. apply path_refl.
  - destruct Hxz as (e & Hin & Hs & Ht). apply in_app_or in Hin.
    destruct Hin as [Hin | [He | []]].
    + assert (Hxz : edgeRel es x z) by (exists e; auto).
      destruct IH as [IH | [IH1 IH2]].
      * left. eapply path_step; eassumption.
      * right. split; [eapply path_step; eassumption | exact IH2].
    + subst e. simpl in Hs, Ht. subst x z.
      right. split; [apply path_refl |].
      destruct IH as [IH | [_ IH]]; exact IH.
Qed.

Lemma acyclic_add_edge : forall es s d data weight,
  acyclic es -> ~ path es d s ->
  acyclic (es ++ [Edge.mk s d data weight]).
Proof.
  intros es s d data weight Hac Hno a b (e & Hin & Hs & Ht) Hp.
  apply path_added_edge in Hp. apply in_app_or in Hin.
  destruct Hin as [Hin | [He | []]].
  - assert (Hab : edgeRel es a b) by (exists e; auto).
    destruct Hp as [Hp | [Hp1 Hp2]].
    + exact (Hac a b Hab Hp).
    + apply Hno. eapply path_trans; [exact Hp2 |].
      eapply path_step; eassumption.
  - subst e. simpl in Hs, Ht. subst a b.
    destruct Hp as [Hp | [Hp _]]; exact (Hno Hp).
Qed.

(** ** The operations of the graph *)

Lemma edgeRel_iff_key : forall es a b,
  edgeRel es a b <-> In (a, b) (map edgeKey es).
Proof.
  intros es a b. rewrite in_map_iff. unfold edgeRel, edgeKey. split.
  - intros (e & Hin & Hs & Ht). exists e. subst. auto.
  - intros (e & Hk & Hin). inversion Hk. exists e. auto.
Qed.

Lemma path_same_keys : forall es es' a b,
  map edgeKey es = map edgeKey es' -> path es a b -> path es' a b.
Proof.
  intros es es' a b Hk Hp. induction Hp as [|a x b Hax _ IH].
  - apply path_refl.
  - eapply path_step; [| exact IH].
    apply edgeRel_iff_key. rewrite <- Hk. apply edgeRel_iff_key. exact Hax.
Qed.

Lemma acyclic_same_keys : forall es es',
  map edgeKey es = map edgeKey es' -> acyclic es -> acyclic es'.
Proof.
  intros es es' Hk Hac a b Hab Hp. apply (Hac a b).
  - apply edgeRel_iff_key. rewrite Hk. apply edgeRel_iff_key. exact Hab.
  - eapply path_same_keys; [symmetry; exact Hk | exact Hp].
Qed.

Lemma isEdge_true : forall s t e,
  isEdge s t e = true <-> edgeKey e = (s, t).
Proof.
  intros s t e. unfold isEdge, edgeKey.
  rewrite andb_true_iff, !String.eqb_eq. split.
  - intros [-> ->]. reflexivity.
  - intro H. inversion H. auto.
Qed.

Lemma GetEdge_found : forall g s t e,
  GetEdge g s t = inr e -> In e (edges g) /\ edgeKey e = (s, t).
Proof.
  intros g s t e. unfold GetEdge.
  destruct (find (isEdge s t) (edges g)) as [e0|] eqn:Hf; [| discriminate].
  intro H. inversion H. subst e0. apply find_some in Hf.
  rewrite isEdge_true in Hf. exact Hf.
Qed.

Lemma GetEdge_missing : forall g s t err,
  GetEdge g s t = inl err ->
  err = ErrEdgeNotFound /\ ~ In (s, t) (map edgeKey (edges g)).
Proof.
  intros g s t err. unfold GetEdge.
  destruct (find (isEdge s t) (edges g)) as [e0|] eqn:Hf; [discriminate |].
  intro H. inversion H. split; [reflexivity |].
  rewrite in_map_iff. intros (e & Hk & Hin).
  apply (find_none _ _ Hf) in Hin. apply isEdge_true in Hk. congruence.
Qed.

(** Replacing the properties of the edge between a pair keeps every
    key in place. *)
Lemma replace_keys : forall s t data weight es,
  map edgeKey (map (fun e => if isEdge s t e
                             then Edge.mk s t data weight else e) es)
  = map edgeKey es.
Proof.
  intros s t data weight es. rewrite map_map. apply map_ext. intro e.
  destruct (isEdge s t e) eqn:He; [| reflexivity].
  apply isEdge_true in He. rewrite He. reflexivity.
Qed.

(** The three outcomes of the critical section of [include]. *)
Inductive linked (g : TaskfileGraph) (s t : string) (include : Include.t)
  : TaskfileGraph * option error -> Prop :=
| linked_rejected :
    ~ In (s, t) (map edgeKey (edges g)) ->
    path (edges g) t s ->
    linked g s t include (g, Some (TaskfileCycleError s t))
| linked_created :
    ~ In (s, t) (map edgeKey (edges g)) ->
    ~ path (edges g) t s ->
    linked g s t include
      (mkGraph (vertices g) (edges g ++ [Edge.mk s t [include] 1]), None)
| linked_extended : forall e,
    GetEdge g s t = inr e ->
    linked g s t include
      (mkGraph (vertices g)
         (map (fun e' => if isEdge s t e'
                         then Edge.mk s t (Edge.Data e ++ [include])
                                      (List.length (Edge.Data e ++ [include]))
                         else e') (edges g)),
       None).

Lemma linkEdge_linked : forall g s t include,
  linked g s t include (linkEdge g s t include).
Proof.
  intros g s t include. unfold linkEdge.
  destruct (GetEdge g s t) as [err | e] eqn:Hget.
  - destruct (GetEdge_missing _ _ _ _ Hget) as [-> Hnone].
    unfold AddEdge. rewrite Hget.
    destruct (CreatesCycle g s t) eqn:Hc; simpl.
    + apply linked_rejected; [exact Hnone |].
      apply CreatesCycle_iff. exact Hc.
    + apply linked_created; [exact Hnone |].
      rewrite <- CreatesCycle_iff. congruence.
  - unfold UpdateEdge. rewrite Hget. apply linked_extended. exact Hget.
Qed.

Lemma linked_wellFormed : forall g s t include out,
  linked g s t include out -> wellFormed g -> wellFormed (fst out).
Proof.
  intros g s t include out Hl [Hv He Hw Hac].
  destruct Hl as [Hnone Hp | Hnone Hp | e Hget]; simpl.
  - constructor; assumption.
  - constructor; simpl.
    + exact Hv.
    + rewrite map_app. simpl. apply NoDup_app.
      * exact He.
      * repeat constructor. intros [].
      * intros k Hk [<- | []]. exact (Hnone Hk).
    + apply Forall_app. split; [exact Hw |].
      repeat constructor.
    + apply acyclic_add_edge; assumption.
  - constructor; simpl.
    + exact Hv.
    + rewrite replace_keys. exact He.
    + apply Forall_forall. intros e' Hin. apply in_map_iff in Hin.
      destruct Hin as (e0 & <- & Hin0).
      destruct (isEdge s t e0).
      * split; simpl; [reflexivity |]. rewrite length_app. simpl. lia.
      * rewrite Forall_forall in Hw. exact (Hw e0 Hin0).
    + eapply acyclic_same_keys; [| exact Hac].
      symmetry. apply replace_keys.
Qed.

Lemma linkEdge_wellFormed : forall g s t include,
  wellFormed g -> wellFormed (fst (linkEdge g s t include)).
Proof.
  intros g s t include. apply linked_wellFormed with (1 := linkEdge_linked g s t include).
Qed.

Lemma hasVertex_iff : forall g uri,
  hasVertex g uri = true <-> In uri (map TaskfileVertex.URI (vertices g)).
Proof.
  intros g uri. unfold hasVertex. rewrite existsb_exists, in_map_iff.
  split; intros (v & H1 & H2).
  - exists v. apply String.eqb_eq in H2. auto.
  - exists v. split; [exact H2 | apply String.eqb_eq; exact H1].
Qed.

Lemma AddVertex_wellFormed : forall g v g',
  AddVertex g v = inr g' -> wellFormed g -> wellFormed g'.
Proof.
  intros g v g'. unfold AddVertex.
  destruct (hasVertex g (TaskfileVertex.URI v)) eqn:Hh; [discriminate |].
  intro H. inversion H. subst g'. intros [Hv He Hw Hac].
  constructor; simpl; try assumption.
  rewrite map_app. simpl. apply NoDup_app.
  - exact Hv.
  - repeat constructor. intros [].
  - intros k Hk [<- | []].
    apply hasVertex_iff in Hk. congruence.
Qed.

Lemma setVertexTaskfile_URIs : forall g uri tf,
  map TaskfileVertex.URI (vertices (setVertexTaskfile g uri tf))
  = map TaskfileVertex.URI (vertices g).
Proof.
  intros g uri tf. simpl. rewrite map_map. apply map_ext. intro v.
  destruct (TaskfileVertex.URI v =? uri) eqn:H; [| reflexivity].
  apply String.eqb_eq in H. simpl. congruence.
Qed.

Lemma setVertexTaskfile_wellFormed : forall g uri tf,
  wellFormed g -> wellFormed (setVertexTaskfile g uri tf).
Proof.
  intros g uri tf [Hv He Hw Hac]. constructor; try assumption.
  rewrite setVertexTaskfile_URIs. exact Hv.
Qed.

(** ** The moves of a run *)

Lemma AddVertex_error : forall g v err,
  AddVertex g v = inl err -> err = ErrVertexAlreadyExists.
Proof.
  intros g v err. unfold AddVertex.
  destruct (hasVertex g (TaskfileVertex.URI v)); congruence.
Qed.

(** A step either leaves the state alone or is one of the moves. *)
Lemma step_moves : forall w r i s,
  step w r i s = s \/
  exists t, nth_error (pool s) i = Some t /\ moves w r i t s (step w r i s).
Proof.
  intros w r i s. unfold step.
  destruct (nth_error (pool s) i) as [t|] eqn:Ht; [| left; reflexivity].
  destruct (at_ t) as [| n | n | n gerr | n | res] eqn:Hat.
  - destruct (owned t) as [| parent nd vars include] eqn:Hown; [left; reflexivity |].
    right. exists t. split; [reflexivity |].
    destruct (resolveInclude w r nd vars include) as [err | | include' n'] eqn:Hres.
    + eapply move_resolve_error; eassumption.
    + eapply move_resolve_skip; eassumption.
    + eapply move_resolve_node; eassumption.
  - right. exists t. split; [reflexivity |].
    destruct (AddVertex (graph s) (TaskfileVertex.mk (Node.Location n) None))
      as [err | g'] eqn:Hadd.
    + pose proof (AddVertex_error _ _ _ Hadd). subst err.
      apply move_vertex_exists; assumption.
    + apply move_vertex_added; assumption.
  - right. exists t. split; [reflexivity |].
    destruct (readNode w r n (mem s)) as [[err | tf] m'] eqn:Hread.
    + apply move_read_error; assumption.
    + apply move_read; assumption.
  - destruct (childrenReturned i (pool s)) eqn:Hc; [| left; reflexivity].
    right. exists t. split; [reflexivity |].
    apply move_join; assumption.
  - destruct (owned t) as [| parent nd vars include] eqn:Hown; [left; reflexivity |].
    right. exists t. split; [reflexivity |].
    destruct (linkEdge (graph s) (Node.Location nd) (Node.Location n) include)
      as [g' res] eqn:Hlink.
    pose proof (move_link w r i t s parent nd vars include n Hat Hown) as Hm.
    rewrite Hlink in Hm. exact Hm.
  - left. reflexivity.
Qed.

(** An invariant of the moves that holds at the start holds in every
    reachable state. *)
Lemma reachable_ind : forall w r c (P : state -> Prop),
  P (start r c) ->
  (forall i t s s', P s -> nth_error (pool s) i = Some t ->
                    moves w r i t s s' -> P s') ->
  forall s, reachable w r c s -> P s.
Proof.
  intros w r c P H0 Hstep s [sched ->].
  induction sched as [|i l IH] using rev_ind.
  - exact H0.
  - unfold run in *. rewrite fold_left_app. simpl.
    destruct (step_moves w r i (fold_left (fun s i => step w r i s) l (start r c)))
      as [Heq | (t & Ht & Hm)].
    + rewrite Heq. exact IH.
    + eapply Hstep; eassumption.
Qed.

Lemma reachable_step : forall w r c i s,
  reachable w r c s -> reachable w r c (step w r i s).
Proof.
  intros w r c i s [sched ->]. exists (sched ++ [i]).
  unfold run. rewrite fold_left_app. reflexivity.
Qed.

(** *** The graph is well formed in every state of a run *)

Lemma moves_wellFormed : forall w r i t s s',
  moves w r i t s s' -> wellFormed (graph s) -> wellFormed (graph s').
Proof.
  intros w r i t s s' Hm Hwf. destruct Hm; simpl; try exact Hwf.
  - eapply AddVertex_wellFormed; eassumption.
  - apply setVertexTaskfile_wellFormed. exact Hwf.
  - apply linkEdge_wellFormed. exact Hwf.
Qed.

Lemma reachable_wellFormed : forall w r c s,
  reachable w r c s -> wellFormed (graph s).
Proof.
  intros w r c. apply reachable_ind.
  - constructor; simpl; try constructor. intros a b (e & [] & _).
  - intros i t s s' Hwf _ Hm. eapply moves_wellFormed; eassumption.
Qed.

(** ** Loading the content of a node *)

Ltac unfold_load :=
  unfold loadNodeContent, nodeRead, cacheRead, cacheWrite, cacheReadChecksum,
    cacheWriteChecksum, computeChecksum, debugf, promptf,
    bind, ret, fail, emit, attempt, lift, getCache, putCache; simpl.

(** Offline, the result is read off the cache alone. *)
Lemma loadNodeContent_offline : forall w r nd s,
  Node.Remote nd = true -> NewCache w (tempDir r) = None -> offline r = true ->
  loadNodeContent w r nd s =
  match readCached w (cache s) nd with
  | inl err =>
      (inl (if Is_ErrNotExist err
            then TaskfileCacheNotFoundError (Node.Location nd) else err),
       mkStore (cache s) (trace s ++ [EvCacheRead (Node.Location nd)]))
  | inr cached =>
      (inr cached,
       mkStore (cache s)
         ((trace s ++ [EvCacheRead (Node.Location nd)])
          ++ [EvDebug (Sprintf "task: [%s] Fetched cached copy\n" (Node.Location nd))
                      (debugFunc r)]))
  end.
Proof.
  intros w r nd s Hrem Hnew Hoff. unfold_load. rewrite Hrem, Hnew, Hoff. simpl.
  destruct (readCached w (cache s) nd) as [err | b]; simpl.
  - destruct (Is_ErrNotExist err); reflexivity.
  - reflexivity.
Qed.

(** After a fetch that failed, the result is the error, or comes from
    the cache when the error is a timeout and no download was
    forced. *)
Lemma loadNodeContent_fetch_failed : forall w r nd s err,
  Node.Remote nd = true -> NewCache w (tempDir r) = None -> offline r = false ->
  Read_ w nd = inl err ->
  loadNodeContent w r nd s =
  let t1 := trace s ++ [EvNodeRead (Node.Location nd)] in
  if Is_TaskfileNetworkTimeoutError err then
    if download r then
      (inl (TaskfileNetworkTimeoutError (Node.Location nd) (timeout r) false),
       mkStore (cache s) t1)
    else
      match readCached w (cache s) nd with
      | inl err' =>
          (inl (if Is_ErrNotExist err'
                then TaskfileNetworkTimeoutError (Node.Location nd) (timeout r) true
                else err'),
           mkStore (cache s) (t1 ++ [EvCacheRead (Node.Location nd)]))
      | inr cached =>
          (inr cached,
           mkStore (cache s)
             ((t1 ++ [EvCacheRead (Node.Location nd)])
              ++ [EvDebug (Sprintf "task: [%s] Network timeout. Fetched cached copy\n"
                                   (Node.Location nd))
                          (debugFunc r)]))
      end
  else (inl err, mkStore (cache s) t1).
Proof.
  intros w r nd s err Hrem Hnew Hoff Hread. unfold_load.
  rewrite Hrem, Hnew, Hoff, Hread. simpl.
  destruct (Is_TaskfileNetworkTimeoutError err); [| reflexivity].
  destruct (download r); [reflexivity |]. simpl.
  destruct (readCached w (cache s) nd) as [err' | b]; simpl.
  - destruct (Is_ErrNotExist err'); reflexivity.
  - reflexivity.
Qed.

(** After a fetch that succeeded, the trust gate decides. *)
Lemma loadNodeContent_fetched : forall w r nd s b,
  Node.Remote nd = true -> NewCache w (tempDir r) = None -> offline r = false ->
  Read_ w nd = inr b ->
  loadNodeContent w r nd s =
  let loc := Node.Location nd in
  let sum := checksum w b in
  let prompt := choosePrompt sum (readChecksum (cache s) nd) in
  let fetched :=
    [EvNodeRead loc;
     EvDebug (Sprintf "task: [%s] Fetched remote copy\n" loc) (debugFunc r);
     EvChecksum b; EvReadChecksum loc] in
  let asked :=
    fetched ++ [EvPrompt (Sprintf prompt loc)
                         (match promptFunc r with Some _ => true | None => false end)] in
  if prompt =? "" then (inr b, mkStore (cache s) (trace s ++ fetched))
  else
    match answer r (Sprintf prompt loc) with
    | Some _ =>
        (inl (TaskfileNotTrustedError loc), mkStore (cache s) (trace s ++ asked))
    | None =>
        match fault w op_writeChecksum loc with
        | Some err =>
            (inl err,
             mkStore (cache s) (trace s ++ asked ++ [EvWriteChecksum loc sum]))
        | None =>
            let c1 := Cache.mk (Cache.content (cache s))
                        (Cache.store loc sum (Cache.checksums (cache s))) in
            let written :=
              asked ++ [EvWriteChecksum loc sum;
                        EvDebug (Sprintf "task: [%s] Caching downloaded file\n" loc)
                                (debugFunc r);
                        EvCacheWrite loc b] in
            match fault w op_write loc with
            | Some err => (inl err, mkStore c1 (trace s ++ written))
            | None =>
                (inr b,
                 mkStore (Cache.mk (Cache.store loc b (Cache.content (cache s)))
                                   (Cache.checksums c1))
                         (trace s ++ written))
            end
        end
    end.
Proof.
  intros w r nd s b Hrem Hnew Hoff Hread. unfold_load.
  rewrite Hrem, Hnew, Hoff, Hread. simpl.
  destruct (choosePrompt (checksum w b) (readChecksum (cache s) nd) =? "") eqn:Hp;
    simpl.
  - repeat rewrite <- app_assoc. reflexivity.
  - unfold answer. destruct (promptFunc r) as [f|]; simpl.
    + destruct (f _) as [e|]; simpl.
      * repeat rewrite <- app_assoc. reflexivity.
      * destruct (fault w op_writeChecksum (Node.Location nd)); simpl.
        -- repeat rewrite <- app_assoc. reflexivity.
        -- destruct (fault w op_write (Node.Location nd)); simpl;
             repeat rewrite <- app_assoc; reflexivity.
    + destruct (fault w op_writeChecksum (Node.Location nd)); simpl.
      * repeat rewrite <- app_assoc. reflexivity.
      * destruct (fault w op_write (Node.Location nd)); simpl;
          repeat rewrite <- app_assoc; reflexivity.
Qed.

Lemma choosePrompt_cases : forall sum cachedChecksum,
  (cachedChecksum = "" /\
   choosePrompt sum cachedChecksum = taskfileUntrustedPrompt) \/
  (cachedChecksum <> "" /\ sum <> cachedChecksum /\
   choosePrompt sum cachedChecksum = taskfileChangedPrompt) \/
  (cachedChecksum <> "" /\ sum = cachedChecksum /\
   choosePrompt sum cachedChecksum = "").
Proof.
  intros sum cachedChecksum. unfold choosePrompt.
  destruct (cachedChecksum =? "") eqn:H1.
  - left. apply String.eqb_eq in H1. auto.
  - apply String.eqb_neq in H1. destruct (sum =? cachedChecksum) eqn:H2; simpl.
    + right. right. apply String.eqb_eq in H2. auto.
    + right. left. apply String.eqb_neq in H2. auto.
Qed.

Lemma prompts_app : forall l l', prompts (l ++ l') = prompts l ++ prompts l'.
Proof. intros. unfold prompts. apply flat_map_app. Qed.

Lemma nodeReads_app : forall l l',
  nodeReads (l ++ l') = nodeReads l ++ nodeReads l'.
Proof. intros. unfold nodeReads. apply flat_map_app. Qed.

Lemma readNodes_app : forall l l',
  readNodes (l ++ l') = readNodes l ++ readNodes l'.
Proof. intros. unfold readNodes. apply flat_map_app. Qed.

Lemma cacheWrites_app : forall l l',
  cacheWrites (l ++ l') = cacheWrites l ++ cacheWrites l'.
Proof. intros. unfold cacheWrites. apply filter_app. Qed.

Lemma trustGate_app : forall l l',
  trustGate (l ++ l') = trustGate l ++ trustGate l'.
Proof. intros. unfold trustGate. apply filter_app. Qed.

Lemma lookup_store : forall (A : Type) key (v : A) l,
  Cache.lookup key (Cache.store key v l) = Some v.
Proof. intros. simpl. rewrite String.eqb_refl. reflexivity. Qed.

Lemma app_one_more_absurd : forall (A : Type) (l : list A) x, l <> l ++ [x].
Proof.
  intros A l x H. apply (f_equal (@List.length A)) in H.
  rewrite length_app in H. simpl in H. lia.
Qed.

(** C7 (offline mode).  For a remote node read with the network
    disabled, [loadNodeContent] makes no network read at all; when the
    cache has no entry for the node it returns a
    [TaskfileCacheNotFoundError] naming the node's location; when the
    cache has an entry it returns the cached bytes, after one read of
    the cache and one debug notification "Fetched cached copy" (which
    reaches the debug function when one is set). *)
Theorem offline_mode_reads_only_the_cache : forall w r nd s,
  Node.Remote nd = true -> offline r = true ->
  let out := loadNodeContent w r nd s in
  nodeReads (trace (snd out)) = nodeReads (trace s) /\
  (NewCache w (tempDir r) = None ->
   (forall err, readCached w (cache s) nd = inl err ->
                Is_ErrNotExist err = true ->
                fst out = inl (TaskfileCacheNotFoundError (Node.Location nd))) /\
   (forall cached, readCached w (cache s) nd = inr cached ->
      fst out = inr cached /\
      cache (snd out) = cache s /\
      trace (snd out) =
        trace s ++ [EvCacheRead (Node.Location nd);
                    EvDebug (Sprintf "task: [%s] Fetched cached copy\n"
                                     (Node.Location nd))
                            (debugFunc r)])).
Proof.
  intros w r nd s Hrem Hoff out. subst out.
  destruct (NewCache w (tempDir r)) as [e|] eqn:Hnew.
  - split; [| discriminate].
    unfold loadNodeContent. rewrite Hrem, Hnew. reflexivity.
  - rewrite (loadNodeContent_offline w r nd s Hrem Hnew Hoff).
    split; [| intros _; split].
    + destruct (readCached w (cache s) nd); simpl;
        repeat rewrite nodeReads_app; simpl; repeat rewrite app_nil_r;
        reflexivity.
    + intros err -> ->. reflexivity.
    + intros cached ->. simpl. rewrite <- app_assoc. auto.
Qed.

(** C4 (timeout fallback).  For a remote node whose fetch fails: on a
    network timeout with a forced download the result is a
    [TaskfileNetworkTimeoutError], whatever the cache holds; on a
    timeout without forced download the cached bytes are returned when
    the cache has an entry, and a [TaskfileNetworkTimeoutError] marked
    as having checked the cache when it has none; any other fetch error
    is returned as it is. *)
Theorem timeout_falls_back_to_the_cache : forall w r nd s err,
  Node.Remote nd = true -> offline r = false ->
  NewCache w (tempDir r) = None -> Read_ w nd = inl err ->
  let out := loadNodeContent w r nd s in
  (Is_TaskfileNetworkTimeoutError err = true -> download r = true ->
   fst out = inl (TaskfileNetworkTimeoutError (Node.Location nd) (timeout r) false)) /\
  (Is_TaskfileNetworkTimeoutError err = true -> download r = false ->
   forall cached, readCached w (cache s) nd = inr cached ->
                  fst out = inr cached) /\
  (Is_TaskfileNetworkTimeoutError err = true -> download r = false ->
   forall err', readCached w (cache s) nd = inl err' ->
                Is_ErrNotExist err' = true ->
                fst out = inl (TaskfileNetworkTimeoutError
                                 (Node.Location nd) (timeout r) true)) /\
  (Is_TaskfileNetworkTimeoutError err = false -> fst out = inl err).
Proof.
  intros w r nd s err Hrem Hoff Hnew Hread out. subst out.
  rewrite (loadNodeContent_fetch_failed w r nd s err Hrem Hnew Hoff Hread).
  cbv zeta. repeat split.
  - intros -> ->. reflexivity.
  - intros -> -> cached ->. reflexivity.
  - intros -> -> err' -> ->. reflexivity.
  - intros ->. reflexivity.
Qed.

(** What the trust gate leaves behind, by the prompt it chose. *)
Lemma loadNodeContent_fetched_summary : forall w r nd s b,
  Node.Remote nd = true -> offline r = false ->
  NewCache w (tempDir r) = None -> Read_ w nd = inr b ->
  let loc := Node.Location nd in
  let sum := checksum w b in
  let prompt := choosePrompt sum (readChecksum (cache s) nd) in
  let out := loadNodeContent w r nd s in
  (prompt = "" ->
   fst out = inr b /\ cache (snd out) = cache s /\
   prompts (trace (snd out)) = prompts (trace s) /\
   cacheWrites (trace (snd out)) = cacheWrites (trace s)) /\
  (prompt <> "" ->
   prompts (trace (snd out)) = prompts (trace s) ++ [Sprintf prompt loc] /\
   match answer r (Sprintf prompt loc) with
   | Some _ =>
       fst out = inl (TaskfileNotTrustedError loc) /\
       cache (snd out) = cache s /\
       cacheWrites (trace (snd out)) = cacheWrites (trace s)
   | None =>
       match fault w op_writeChecksum loc, fault w op_write loc with
       | None, None =>
           fst out = inr b /\
           cacheWrites (trace (snd out))
           = cacheWrites (trace s) ++ [EvWriteChecksum loc sum; EvCacheWrite loc b] /\
           Cache.lookup loc (Cache.checksums (cache (snd out))) = Some sum /\
           Cache.lookup loc (Cache.content (cache (snd out))) = Some b
       | Some err, _ => fst out = inl err
       | None, Some err => fst out = inl err
       end
   end).
Proof.
  intros w r nd s b Hrem Hoff Hnew Hread loc sum prompt out.
  subst out. rewrite (loadNodeContent_fetched w r nd s b Hrem Hnew Hoff Hread).
  cbv zeta. fold loc sum prompt. split.
  - intros ->. simpl. rewrite prompts_app, cacheWrites_app. simpl.
    rewrite !app_nil_r. auto.
  - intro Hne. apply String.eqb_neq in Hne. rewrite Hne.
    destruct (answer r (Sprintf prompt loc)) as [e|]; simpl.
    + rewrite prompts_app, cacheWrites_app. simpl. rewrite app_nil_r. auto.
    + destruct (fault w op_writeChecksum loc) as [e1|]; simpl.
      * rewrite prompts_app. simpl. auto.
      * destruct (fault w op_write loc) as [e2|]; simpl;
          rewrite prompts_app; simpl; [auto |].
        rewrite cacheWrites_app. simpl. rewrite !String.eqb_refl. auto.
Qed.

(** C3 (trust gate).  For a remote node whose fetch succeeds with
    bytes [b]: with no recorded checksum exactly one prompt is issued,
    the untrusted-source one; with a recorded checksum that differs
    from the checksum of [b] exactly one prompt is issued, the
    changed-source one; with a matching checksum no prompt is issued,
    the cache is neither written nor changed and [b] is returned.  If
    the prompt issued is rejected the result is a
    [TaskfileNotTrustedError] and the cache is unchanged; if it is
    accepted, the result is [b] unless a write to the cache fails, and
    whenever [b] is returned the checksum and the content were written
    (in this order) and the cache holds both. *)
Theorem trust_gate_on_fetched_content : forall w r nd s b,
  Node.Remote nd = true -> offline r = false ->
  NewCache w (tempDir r) = None -> Read_ w nd = inr b ->
  let loc := Node.Location nd in
  let sum := checksum w b in
  let cachedChecksum := readChecksum (cache s) nd in
  let out := loadNodeContent w r nd s in
  (cachedChecksum = "" ->
   prompts (trace (snd out))
   = prompts (trace s) ++ [Sprintf taskfileUntrustedPrompt loc]) /\
  (cachedChecksum <> "" -> sum <> cachedChecksum ->
   prompts (trace (snd out))
   = prompts (trace s) ++ [Sprintf taskfileChangedPrompt loc]) /\
  (cachedChecksum <> "" -> sum = cachedChecksum ->
   prompts (trace (snd out)) = prompts (trace s) /\
   cacheWrites (trace (snd out)) = cacheWrites (trace s) /\
   cache (snd out) = cache s /\
   fst out = inr b) /\
  (forall msg err,
     prompts (trace (snd out)) = prompts (trace s) ++ [msg] ->
     answer r msg = Some err ->
     fst out = inl (TaskfileNotTrustedError loc) /\
     cache (snd out) = cache s /\
     cacheWrites (trace (snd out)) = cacheWrites (trace s)) /\
  (forall msg,
     prompts (trace (snd out)) = prompts (trace s) ++ [msg] ->
     answer r msg = None ->
     (fault w op_writeChecksum loc = None -> fault w op_write loc = None ->
      fst out = inr b) /\
     (fst out = inr b ->
      cacheWrites (trace (snd out))
      = cacheWrites (trace s) ++ [EvWriteChecksum loc sum; EvCacheWrite loc b] /\
      Cache.lookup loc (Cache.checksums (cache (snd out))) = Some sum /\
      Cache.lookup loc (Cache.content (cache (snd out))) = Some b)).
Proof.
  intros w r nd s b Hrem Hoff Hnew Hread loc sum cachedChecksum out.
  destruct (loadNodeContent_fetched_summary w r nd s b Hrem Hoff Hnew Hread)
    as [Hsilent Hasked].
  fold loc sum cachedChecksum out in Hsilent, Hasked.
  assert (Huntrusted : taskfileUntrustedPrompt <> "") by discriminate.
  assert (Hchanged : taskfileChangedPrompt <> "") by discriminate.
  assert (Hmsg : forall msg,
             prompts (trace (snd out)) = prompts (trace s) ++ [msg] ->
             choosePrompt sum cachedChecksum <> "" /\
             msg = Sprintf (choosePrompt sum cachedChecksum) loc).
  { intros msg Hp.
    destruct (string_dec (choosePrompt sum cachedChecksum) "") as [He | Hne].
    - destruct (Hsilent He) as (_ & _ & Hq & _). rewrite Hq in Hp.
      destruct (app_one_more_absurd _ _ _ Hp).
    - split; [exact Hne |]. destruct (Hasked Hne) as [Hq _].
      rewrite Hq in Hp. apply app_inv_head in Hp. congruence. }
  destruct (choosePrompt_cases sum cachedChecksum)
    as [[Hc Hp] | [(Hc & Hne & Hp) | (Hc & Heq & Hp)]].
  - (* no checksum recorded *)
    rewrite Hp in Hasked, Hmsg. destruct (Hasked Huntrusted) as [Hq Hans].
    split; [intros _; exact Hq |].
    split; [intros Hc'; contradiction |].
    split; [intros Hc'; contradiction |].
    split.
    + intros msg err Hpm Ha. destruct (Hmsg msg Hpm) as [_ ->].
      rewrite Ha in Hans. exact Hans.
    + intros msg Hpm Ha. destruct (Hmsg msg Hpm) as [_ ->].
      rewrite Ha in Hans.
      destruct (fault w op_writeChecksum loc) as [e1|];
        [| destruct (fault w op_write loc) as [e2|]].
      * split; [discriminate | rewrite Hans; discriminate].
      * split; [discriminate | rewrite Hans; discriminate].
      * split; [intros _ _; apply Hans | intros _; apply Hans].
  - (* a different checksum recorded *)
    rewrite Hp in Hasked, Hmsg. destruct (Hasked Hchanged) as [Hq Hans].
    split; [intros Hc'; contradiction |].
    split; [intros _ _; exact Hq |].
    split; [intros _ Heq; contradiction |].
    split.
    + intros msg err Hpm Ha. destruct (Hmsg msg Hpm) as [_ ->].
      rewrite Ha in Hans. exact Hans.
    + intros msg Hpm Ha. destruct (Hmsg msg Hpm) as [_ ->].
      rewrite Ha in Hans.
      destruct (fault w op_writeChecksum loc) as [e1|];
        [| destruct (fault w op_write loc) as [e2|]].
      * split; [discriminate | rewrite Hans; discriminate].
      * split; [discriminate | rewrite Hans; discriminate].
      * split; [intros _ _; apply Hans | intros _; apply Hans].
  - (* the recorded checksum matches *)
    destruct (Hsilent Hp) as (Hres & Hcache & Hq & Hw).
    split; [intros Hc'; contradiction |].
    split; [intros _ Hne; contradiction |].
    split; [intros _ _; auto |].
    split.
    + intros msg err Hpm _. destruct (Hmsg msg Hpm) as [Hne _]. contradiction.
    + intros msg Hpm _. destruct (Hmsg msg Hpm) as [Hne _]. contradiction.
Qed.

(** C10 (cache-served content bypasses the trust gate).  Whenever the
    content of a remote node is served from the cache, in offline mode
    or after a network timeout without forced download, the cached
    bytes are returned with no checksum computed, no recorded checksum
    read and no prompt issued, and the cache is neither written nor
    changed. *)
Theorem cached_content_bypasses_the_trust_gate : forall w r nd s cached,
  Node.Remote nd = true -> NewCache w (tempDir r) = None ->
  readCached w (cache s) nd = inr cached ->
  offline r = true \/
  (offline r = false /\ download r = false /\
   exists err, Read_ w nd = inl err /\ Is_TaskfileNetworkTimeoutError err = true) ->
  let out := loadNodeContent w r nd s in
  fst out = inr cached /\
  trustGate (trace (snd out)) = trustGate (trace s) /\
  cacheWrites (trace (snd out)) = cacheWrites (trace s) /\
  cache (snd out) = cache s.
Proof.
  intros w r nd s cached Hrem Hnew Hcached Hmode out. subst out.
  destruct Hmode as [Hoff | (Hoff & Hdl & err & Hread & Hto)].
  - rewrite (loadNodeContent_offline w r nd s Hrem Hnew Hoff), Hcached. simpl.
    rewrite !trustGate_app, !cacheWrites_app. simpl. rewrite !app_nil_r. auto.
  - rewrite (loadNodeContent_fetch_failed w r nd s err Hrem Hnew Hoff Hread).
    cbv zeta. rewrite Hto, Hdl, Hcached. simpl.
    rewrite !trustGate_app, !cacheWrites_app. simpl. rewrite !app_nil_r. auto.
Qed.

(** ** Reading and stamping a document *)

(** A document that [readNode] returns comes from the decoder, carries
    the location of its node, and has each task of the mapping passed
    through the stamping loop. *)
Lemma readNode_returns : forall w r nd s tf s',
  readNode w r nd s = (inr tf, s') ->
  exists b parsed,
    Unmarshal w b = inr parsed /\
    Taskfile.Version parsed <> None /\
    tf = Taskfile.mk (Node.Location nd) (Taskfile.Version parsed)
           (Taskfile.Vars parsed)
           (map (fun nt => (fst nt, stampTask (Node.Location nd) (snd nt)))
                (Taskfile.Tasks parsed))
           (Taskfile.Includes parsed).
Proof.
  intros w r nd s tf s'. unfold readNode, bind, emit. simpl.
  destruct (loadNodeContent w r nd _) as [[err | b] s1]; [discriminate |].
  destruct (Unmarshal w b) as [err | parsed] eqn:Hparse.
  - destruct (As_TaskfileDecodeError err) as [[line column] |]; discriminate.
  - destruct (Taskfile.Version parsed) as [v|] eqn:Hv; [| discriminate].
    unfold ret. intro H. inversion H. subst.
    exists b, parsed. rewrite Hv. repeat split; congruence.
Qed.

(** The loop stamps a task that has no provenance, keeps the
    provenance of a task that has one, and leaves a nil entry nil. *)
Lemma stampTask_cases : forall location task,
  match task with
  | Some t =>
      if Location.Taskfile (Task.Location t) =? ""
      then stampTask location task = Some (Task.setTaskfile location t)
      else stampTask location task = Some t
  | None => stampTask location task = None
  end.
Proof.
  intros location [t|]; simpl; [| reflexivity].
  destruct (Location.Taskfile (Task.Location t) =? ""); reflexivity.
Qed.

(** C9, at the failing input: [readNode] on a document whose [tasks]
    mapping has the null entry [build] and the task [test].  The
    document is stamped with its location and so is the task [test],
    but the entry [build] is still nil: it was not replaced by an
    empty task. *)
Theorem readNode_leaves_a_null_task_null :
  fst (readNode Examples.nullTaskWorld (Examples.reader "Taskfile.yml")
                (Node.mk "Taskfile.yml" false) (mkStore Cache.empty []))
  = inr (Taskfile.mk "Taskfile.yml" (Some "3") []
           [("build", None);
            ("test", Some (Task.mk "test" (Location.mk 4 3 "Taskfile.yml")))]
           []).
Proof. vm_compute. reflexivity. Qed.

(** *** The claims at concrete inputs *)

Lemma offline_mode_reads_only_the_cache_witness :
  fst (loadNodeContent (Examples.remoteWorld (inr Examples.v1) Examples.noFault)
         (Examples.remoteReader true false None) Examples.remoteNode
         (mkStore Cache.empty []))
  = inl (TaskfileCacheNotFoundError Examples.url) /\
  fst (loadNodeContent (Examples.remoteWorld (inr Examples.v1) Examples.noFault)
         (Examples.remoteReader true false None) Examples.remoteNode
         (mkStore Examples.cachedV1 []))
  = inr Examples.v1.
Proof.
  split.
  - destruct (offline_mode_reads_only_the_cache
                (Examples.remoteWorld (inr Examples.v1) Examples.noFault)
                (Examples.remoteReader true false None) Examples.remoteNode
                (mkStore Cache.empty []) eq_refl eq_refl) as [_ H].
    destruct (H eq_refl) as [Hnone _].
    exact (Hnone ErrNotExist eq_refl eq_refl).
  - destruct (offline_mode_reads_only_the_cache
                (Examples.remoteWorld (inr Examples.v1) Examples.noFault)
                (Examples.remoteReader true false None) Examples.remoteNode
                (mkStore Examples.cachedV1 []) eq_refl eq_refl) as [_ H].
    destruct (H eq_refl) as [_ Hsome].
    exact (proj1 (Hsome Examples.v1 eq_refl)).
Defined.

Lemma timeout_falls_back_to_the_cache_witness :
  fst (loadNodeContent
         (Examples.remoteWorld
            (inl (TaskfileNetworkTimeoutError Examples.url tenSeconds false))
            Examples.noFault)
         (Examples.remoteReader false false None) Examples.remoteNode
         (mkStore Examples.cachedV1 []))
  = inr Examples.v1 /\
  fst (loadNodeContent
         (Examples.remoteWorld
            (inl (TaskfileNetworkTimeoutError Examples.url tenSeconds false))
            Examples.noFault)
         (Examples.remoteReader false true None) Examples.remoteNode
         (mkStore Examples.cachedV1 []))
  = inl (TaskfileNetworkTimeoutError Examples.url tenSeconds false).
Proof.
  split.
  - destruct (timeout_falls_back_to_the_cache
                (Examples.remoteWorld
                   (inl (TaskfileNetworkTimeoutError Examples.url tenSeconds false))
                   Examples.noFault)
                (Examples.remoteReader false false None) Examples.remoteNode
                (mkStore Examples.cachedV1 [])
                (TaskfileNetworkTimeoutError Examples.url tenSeconds false)
                eq_refl eq_refl eq_refl eq_refl) as (_ & H & _).
    exact (H eq_refl eq_refl Examples.v1 eq_refl).
  - destruct (timeout_falls_back_to_the_cache
                (Examples.remoteWorld
                   (inl (TaskfileNetworkTimeoutError Examples.url tenSeconds false))
                   Examples.noFault)
                (Examples.remoteReader false true None) Examples.remoteNode
                (mkStore Examples.cachedV1 [])
                (TaskfileNetworkTimeoutError Examples.url tenSeconds false)
                eq_refl eq_refl eq_refl eq_refl) as (H & _).
    exact (H eq_refl eq_refl).
Defined.

Lemma trust_gate_on_fetched_content_witness :
  fst (loadNodeContent (Examples.remoteWorld (inr Examples.v2) Examples.noFault)
         (Examples.remoteReader false false (Some Examples.reject))
         Examples.remoteNode (mkStore Examples.cachedV1 []))
  = inl (TaskfileNotTrustedError Examples.url) /\
  Cache.lookup Examples.url
    (Cache.content
       (cache (snd (loadNodeContent
                      (Examples.remoteWorld (inr Examples.v1) Examples.noFault)
                      (Examples.remoteReader false false (Some Examples.accept))
                      Examples.remoteNode (mkStore Cache.empty [])))))
  = Some Examples.v1.
Proof.
  split.
  - destruct (trust_gate_on_fetched_content
                (Examples.remoteWorld (inr Examples.v2) Examples.noFault)
                (Examples.remoteReader false false (Some Examples.reject))
                Examples.remoteNode (mkStore Examples.cachedV1 []) Examples.v2
                eq_refl eq_refl eq_refl eq_refl) as (_ & Hchanged & _ & Hrej & _).
    refine (proj1 (Hrej (Sprintf taskfileChangedPrompt Examples.url)
                        (OtherError "no") _ eq_refl)).
    apply Hchanged; discriminate.
  - destruct (trust_gate_on_fetched_content
                (Examples.remoteWorld (inr Examples.v1) Examples.noFault)
                (Examples.remoteReader false false (Some Examples.accept))
                Examples.remoteNode (mkStore Cache.empty []) Examples.v1
                eq_refl eq_refl eq_refl eq_refl) as (Hnew & _ & _ & _ & Hacc).
    destruct (Hacc (Sprintf taskfileUntrustedPrompt Examples.url)
                   (Hnew eq_refl) eq_refl) as [Hok Hkept].
    exact (proj2 (proj2 (Hkept (Hok eq_refl eq_refl)))).
Defined.

Lemma cached_content_bypasses_the_trust_gate_witness :
  trustGate (trace (snd (loadNodeContent
     (Examples.remoteWorld
        (inl (TaskfileNetworkTimeoutError Examples.url tenSeconds false))
        Examples.noFault)
     (Examples.remoteReader false false (Some Examples.reject))
     Examples.remoteNode (mkStore Examples.cachedV1 []))))
  = [] /\
  fst (loadNodeContent
     (Examples.remoteWorld (inr Examples.v2) Examples.noFault)
     (Examples.remoteReader true false (Some Examples.reject))
     Examples.remoteNode (mkStore Examples.cachedV1 []))
  = inr Examples.v1.
Proof.
  split.
  - refine (proj1 (proj2 (cached_content_bypasses_the_trust_gate
       (Examples.remoteWorld
          (inl (TaskfileNetworkTimeoutError Examples.url tenSeconds false))
          Examples.noFault)
       (Examples.remoteReader false false (Some Examples.reject))
       Examples.remoteNode (mkStore Examples.cachedV1 []) Examples.v1
       eq_refl eq_refl eq_refl _))).
    right. split; [reflexivity |]. split; [reflexivity |].
    exists (TaskfileNetworkTimeoutError Examples.url tenSeconds false).
    split; reflexivity.
  - refine (proj1 (cached_content_bypasses_the_trust_gate
       (Examples.remoteWorld (inr Examples.v2) Examples.noFault)
       (Examples.remoteReader true false (Some Examples.reject))
       Examples.remoteNode (mkStore Examples.cachedV1 []) Examples.v1
       eq_refl eq_refl eq_refl _)).
    left. reflexivity.
Defined.

(** ** The goroutines of a run *)

Lemma nth_error_update : forall (A : Type) (f : A -> A) l i j,
  nth_error (update i f l) j
  = if (j =? i)%nat then option_map f (nth_error l j) else nth_error l j.
Proof.
  intros A f l. induction l as [|x rest IH]; intros i j.
  - destruct i as [|i]; destruct j as [|j]; simpl; try reflexivity;
      destruct (j =? i)%nat; reflexivity.
  - destruct i as [|i]; destruct j as [|j]; simpl; try reflexivity.
    apply IH.
Qed.

Lemma length_update : forall (A : Type) (f : A -> A) l i,
  List.length (update i f l) = List.length l.
Proof.
  intros A f l. induction l as [|x rest IH]; intros [|i]; simpl; auto.
Qed.


Lemma update_const : forall (A : Type) (f : A -> A) l i x,
  nth_error l i = Some x -> update i f l = update i (fun _ => f x) l.
Proof.
  intros A f l. induction l as [|y rest IH]; intros [|i] x H; simpl in *;
    try discriminate.
  - inversion H. reflexivity.
  - f_equal. apply IH. exact H.
Qed.

Lemma setStage_const : forall i st p t,
  nth_error p i = Some t ->
  setStage i st p = update i (fun _ => mkGoroutine (owned t) st) p.
Proof.
  intros i st p t H. unfold setStage.
  apply (update_const _ (fun t => mkGoroutine (owned t) st) p i t H).
Qed.

Lemma goReturn_nil : forall i t p,
  nth_error p i = Some t ->
  goReturn i t None p = update i (fun _ => mkGoroutine (owned t) (Returned None)) p.
Proof.
  intros i t p H. unfold goReturn. rewrite (setStage_const _ _ _ _ H).
  reflexivity.
Qed.

Lemma goReturn_error : forall i t err p,
  nth_error p i = Some t ->
  goReturn i t (Some err) p
  = match parentOf (owned t) with
    | Some parent => update parent (reportTo err)
    | None => fun p => p
    end (update i (fun _ => mkGoroutine (owned t) (Returned (Some err))) p).
Proof.
  intros i t err p H. unfold goReturn. rewrite (setStage_const _ _ _ _ H).
  destruct (owned t); reflexivity.
Qed.

Lemma includeReturn_error : forall i t n err p,
  includeReturn i t n (Some err) p = goReturn i t (Some err) p.
Proof. intros. unfold includeReturn. destruct (owned t); reflexivity. Qed.

Lemma includeReturn_nil : forall i t n p,
  includeReturn i t n None p
  = match owned t with
    | ByRead => goReturn i t None p
    | ByGo _ _ _ _ => setStage i (Linking n) p
    end.
Proof. intros. unfold includeReturn. destruct (owned t); reflexivity. Qed.

(** What a move does to the pool and to the raised errors. *)
Lemma moves_changes : forall w r i t s s',
  moves w r i t s s' -> nth_error (pool s) i = Some t ->
  isReturned (at_ t) = false /\
  (forall n gerr, at_ t = Waiting n gerr -> childrenReturned i (pool s) = true) /\
  changes i t s s'.
Proof.
  intros w r i t s s' Hm Ht.
  destruct Hm as [parent nd vars include err Hat Hown Hres
                 | parent nd vars include Hat Hown Hres
                 | parent nd vars include include' n' Hat Hown Hres
                 | n Hat Hadd | n g' Hat Hadd
                 | n err m' Hat Hread | n tf m' Hat Hread
                 | n gerr Hat Hjoin
                 | parent nd vars include n Hat Hown];
    rewrite Hat; (split; [reflexivity |]);
    (split; [try discriminate |]).
  - apply ch_return_error with (err := err); simpl.
    + apply goReturn_error. exact Ht.
    + left. reflexivity.
  - apply ch_return_nil; simpl; [rewrite Hat; reflexivity | | reflexivity].
    apply goReturn_nil. exact Ht.
  - apply ch_advance with (o' := ByGo parent nd vars include')
                          (st' := Including n'); simpl;
      try reflexivity; try discriminate.
    + rewrite Hown. reflexivity.
    + rewrite Hown. split; discriminate.
    + rewrite Hat. reflexivity.
  - rewrite includeReturn_nil.
    destruct (owned t) as [| parent nd vars include] eqn:Hown.
    + apply ch_return_nil; simpl; [rewrite Hat; reflexivity | | reflexivity].
      apply goReturn_nil. exact Ht.
    + apply ch_advance with (o' := owned t) (st' := Linking n); simpl;
        try reflexivity; try discriminate.
      * rewrite Hat. reflexivity.
      * apply setStage_const. exact Ht.
  - apply ch_advance with (o' := owned t) (st' := Reading n); simpl;
      try reflexivity; try discriminate.
    + rewrite Hat. reflexivity.
    + apply setStage_const. exact Ht.
  - apply ch_return_error with (err := err); simpl.
    + rewrite includeReturn_error. apply goReturn_error. exact Ht.
    + left. reflexivity.
  - apply ch_spawn with (n := n)
      (children := map (fun include =>
                          mkGoroutine
                            (ByGo i n (Merge (GetEnviron w) (Taskfile.Vars tf))
                                  include) Spawned)
                       (Taskfile.Includes tf)); simpl.
    + apply Forall_forall. intros c Hc. apply in_map_iff in Hc.
      destruct Hc as (inc & <- & _). simpl. auto.
    + rewrite Hat. reflexivity.
    + rewrite (setStage_const _ _ _ _ Ht). reflexivity.
    + reflexivity.
  - intros n0 gerr0 Heq. exact Hjoin.
  - destruct gerr as [err|].
    + apply ch_return_error with (err := err); simpl.
      * rewrite includeReturn_error. apply goReturn_error. exact Ht.
      * right. rewrite Hat. auto.
    + rewrite includeReturn_nil.
      destruct (owned t) as [| parent nd vars include] eqn:Hown.
      * apply ch_return_nil; simpl; [rewrite Hat; reflexivity | | reflexivity].
        apply goReturn_nil. exact Ht.
      * apply ch_advance with (o' := owned t) (st' := Linking n); simpl;
          try reflexivity; try discriminate.
        -- rewrite Hat. reflexivity.
        -- apply setStage_const. exact Ht.
  - destruct (snd (linkEdge (graph s) (Node.Location nd) (Node.Location n) include))
      as [err|] eqn:Hlink.
    + apply ch_return_error with (err := err); simpl.
      * apply goReturn_error. exact Ht.
      * left. reflexivity.
    + apply ch_return_nil; simpl.
      * rewrite Hat. reflexivity.
      * apply goReturn_nil. exact Ht.
      * apply app_nil_r.
Qed.

Lemma childrenReturned_spec : forall i p j tj,
  childrenReturned i p = true ->
  nth_error p j = Some tj -> parentOf (owned tj) = Some i ->
  isReturned (at_ tj) = true.
Proof.
  intros i p j tj Hc Hj Hp. unfold childrenReturned in Hc.
  rewrite forallb_forall in Hc. specialize (Hc tj (nth_error_In _ _ Hj)).
  destruct (owned tj) as [| parent nd vars include]; [discriminate |].
  simpl in Hp. inversion Hp. subst parent.
  rewrite Nat.eqb_refl in Hc. exact Hc.
Qed.

(** A goroutine that moves has no goroutine of its own still
    running. *)
Lemma mover_is_quiet : forall s i t,
  orderly s -> nth_error (pool s) i = Some t ->
  (forall n gerr, at_ t = Waiting n gerr -> childrenReturned i (pool s) = true) ->
  forall j tj, nth_error (pool s) j = Some tj ->
               parentOf (owned tj) = Some i -> isReturned (at_ tj) = true.
Proof.
  intros s i t Hord Ht Hjoin j tj Hj Hp.
  destruct (isReturned (at_ tj)) eqn:Hret; [reflexivity |].
  destruct (ord_waiting s Hord j tj i Hj Hp Hret) as (tp & n & gerr & Htp & Hw).
  rewrite Ht in Htp. inversion Htp. subst tp.
  rewrite (childrenReturned_spec i (pool s) j tj (Hjoin n gerr Hw) Hj Hp) in Hret.
  discriminate.
Qed.

Lemma lookup_moved : forall (p : list goroutine) i t x cs j,
  nth_error p i = Some t ->
  nth_error (update i (fun _ => x) p ++ cs) j
  = if (j =? i)%nat then Some x
    else if (j <? List.length p)%nat then nth_error p j
         else nth_error cs (j - List.length p).
Proof.
  intros p i t x cs j Ht.
  assert (Hi : i < List.length p) by (apply nth_error_Some; congruence).
  destruct (j <? List.length p)%nat eqn:Hlt.
  - apply Nat.ltb_lt in Hlt.
    rewrite nth_error_app1 by (rewrite length_update; exact Hlt).
    rewrite nth_error_update. destruct (j =? i)%nat eqn:Hji; [| reflexivity].
    apply Nat.eqb_eq in Hji. subst j. rewrite Ht. reflexivity.
  - apply Nat.ltb_ge in Hlt.
    rewrite nth_error_app2 by (rewrite length_update; exact Hlt).
    rewrite length_update.
    destruct (j =? i)%nat eqn:Hji; [| reflexivity].
    apply Nat.eqb_eq in Hji. lia.
Qed.

Lemma lookup_moved_plain : forall (p : list goroutine) i t x j,
  nth_error p i = Some t ->
  nth_error (update i (fun _ => x) p) j
  = if (j =? i)%nat then Some x else nth_error p j.
Proof.
  intros p i t x j Ht. rewrite nth_error_update.
  destruct (j =? i)%nat eqn:Hji; [| reflexivity].
  apply Nat.eqb_eq in Hji. subst j. rewrite Ht. reflexivity.
Qed.

Lemma lookup_reported : forall (p : list goroutine) i t x q err j,
  nth_error p i = Some t -> q <> i ->
  nth_error (update q (reportTo err) (update i (fun _ => x) p)) j
  = if (j =? i)%nat then Some x
    else if (j =? q)%nat then option_map (reportTo err) (nth_error p j)
         else nth_error p j.
Proof.
  intros p i t x q err j Ht Hq. rewrite nth_error_update.
  rewrite (lookup_moved_plain p i t x j Ht).
  destruct (j =? q)%nat eqn:Hjq; destruct (j =? i)%nat eqn:Hji; try reflexivity.
  apply Nat.eqb_eq in Hjq, Hji. congruence.
Qed.

Lemma reportTo_owned : forall err t, owned (reportTo err t) = owned t.
Proof.
  intros err t. unfold reportTo.
  destruct (at_ t) as [| | | n [e|] | |]; reflexivity.
Qed.

Lemma reportTo_waiting : forall err t n gerr,
  at_ t = Waiting n gerr ->
  exists gerr', at_ (reportTo err t) = Waiting n gerr' /\
                failed (at_ (reportTo err t)) = true /\
                (gerr' = Some err \/ gerr' = gerr).
Proof.
  intros err t n gerr H. unfold reportTo. rewrite H.
  destruct gerr as [e|]; simpl.
  - exists (Some e). rewrite H. auto.
  - exists (Some err). auto.
Qed.

Lemma reportTo_returned : forall err t,
  isReturned (at_ (reportTo err t)) = isReturned (at_ t).
Proof.
  intros err t. unfold reportTo.
  destruct (at_ t) as [| | | n [e|] | |] eqn:H; simpl; rewrite ?H; reflexivity.
Qed.

Lemma reportTo_stage : forall err t,
  at_ (reportTo err t) = at_ t \/
  exists n, at_ t = Waiting n None /\ at_ (reportTo err t) = Waiting n (Some err).
Proof.
  intros err t. unfold reportTo.
  destruct (at_ t) as [| | | n [e|] | |] eqn:H; simpl; rewrite ?H; auto.
  right. exists n. auto.
Qed.

Lemma reportTo_failed : forall err t,
  failed (at_ t) = true -> failed (at_ (reportTo err t)) = true.
Proof.
  intros err t H. destruct (reportTo_stage err t) as [-> | (n & Hn & _)].
  - exact H.
  - rewrite Hn in H. discriminate.
Qed.

Ltac split_eqb :=
  match goal with
  | H : context [(?a =? ?b)%nat] |- _ =>
      let E := fresh "E" in
      destruct (a =? b)%nat eqn:E;
      [apply Nat.eqb_eq in E | apply Nat.eqb_neq in E]
  | |- context [(?a =? ?b)%nat] =>
      let E := fresh "E" in
      destruct (a =? b)%nat eqn:E;
      [apply Nat.eqb_eq in E | apply Nat.eqb_neq in E]
  end.

Ltac split_ltb :=
  match goal with
  | H : context [(?a <? ?b)%nat] |- _ =>
      let E := fresh "E" in
      destruct (a <? b)%nat eqn:E;
      [apply Nat.ltb_lt in E | apply Nat.ltb_ge in E]
  | |- context [(?a <? ?b)%nat] =>
      let E := fresh "E" in
      destruct (a <? b)%nat eqn:E;
      [apply Nat.ltb_lt in E | apply Nat.ltb_ge in E]
  end.

Ltac same_goroutine :=
  match goal with
  | H : Some _ = Some _ |- _ => inversion H; subst; clear H
  end.

Section Advance.

Variables (s s' : state) (i : nat) (t : goroutine) (o' : owner) (st' : stage).
Hypothesis Hord : orderly s.
Hypothesis Ht : nth_error (pool s) i = Some t.
Hypothesis Hrun : isReturned (at_ t) = false.
Hypothesis Hquiet : forall j tj, nth_error (pool s) j = Some tj ->
  parentOf (owned tj) = Some i -> isReturned (at_ tj) = true.
Hypothesis Hpar : parentOf o' = parentOf (owned t).
Hypothesis Hroot : o' = ByRead <-> owned t = ByRead.
Hypothesis Hst1 : forall err, st' <> Returned (Some err).
Hypothesis Hst2 : heldError st' = None.
Hypothesis Hheld : heldError (at_ t) = None.
Hypothesis Hpool : pool s' = update i (fun _ => mkGoroutine o' st') (pool s).
Hypothesis Hfail : failures s' = failures s.

Lemma advance_lookup : forall j,
  nth_error (pool s') j
  = if (j =? i)%nat then Some (mkGoroutine o' st') else nth_error (pool s) j.
Proof. intro j. rewrite Hpool. apply (lookup_moved_plain _ _ t). exact Ht. Qed.

Lemma advance_orderly : orderly s'.
Proof.
  constructor.
  - destruct (ord_root s Hord) as (t0 & H0 & Ho).
    rewrite advance_lookup. split_eqb.
    + subst i. exists (mkGoroutine o' st'). split; [reflexivity |]. simpl.
      apply Hroot. congruence.
    + exists t0. auto.
  - intros j tj Hj Ho. rewrite advance_lookup in Hj. split_eqb.
    + same_goroutine. simpl in Ho. apply (ord_only_root s Hord i t Ht).
      apply Hroot. exact Ho.
    + apply (ord_only_root s Hord j tj Hj Ho).
  - intros j tj p Hj Hp. rewrite advance_lookup in Hj. split_eqb.
    + same_goroutine. simpl in Hp. rewrite Hpar in Hp.
      apply (ord_parent s Hord i t p Ht Hp).
    + apply (ord_parent s Hord j tj p Hj Hp).
  - intros j tj p Hj Hp Hr. rewrite advance_lookup in Hj.
    assert (Hold : exists told, nth_error (pool s) j = Some told /\
                     parentOf (owned told) = Some p /\
                     isReturned (at_ told) = false).
    { split_eqb.
      - same_goroutine. exists t. simpl in Hp. rewrite Hpar in Hp. auto.
      - exists tj. auto. }
    destruct Hold as (told & Hjo & Hpo & Hro).
    destruct (ord_waiting s Hord j told p Hjo Hpo Hro) as (tp & n & gerr & Htp & Hw).
    destruct (Nat.eq_dec p i) as [-> | Hpi].
    + rewrite (Hquiet j told Hjo Hpo) in Hro. discriminate.
    + exists tp, n, gerr. rewrite advance_lookup.
      apply Nat.eqb_neq in Hpi. rewrite Hpi. auto.
  - intros j tj p err Hj Hp Hr. rewrite advance_lookup in Hj. split_eqb.
    + same_goroutine. simpl in Hr. destruct (Hst1 err Hr).
    + destruct (ord_reported s Hord j tj p err Hj Hp Hr) as (tp & Htp & Hf).
      destruct (Nat.eq_dec p i) as [-> | Hpi].
      * rewrite Ht in Htp. inversion Htp. subst tp.
        unfold failed in Hf. rewrite Hheld in Hf. discriminate.
      * exists tp. rewrite advance_lookup.
        apply Nat.eqb_neq in Hpi. rewrite Hpi. auto.
  - intros j tj err Hj Hh. rewrite Hfail. rewrite advance_lookup in Hj. split_eqb.
    + same_goroutine. simpl in Hh. congruence.
    + apply (ord_held s Hord j tj err Hj Hh).
  - rewrite Hfail. intro Hne.
    destruct (ord_raised s Hord Hne) as (j & tj & err & Hj & Hr).
    exists j, tj, err. rewrite advance_lookup. split_eqb.
    + subst j. rewrite Ht in Hj. inversion Hj. subst tj.
      rewrite Hr in Hrun. discriminate.
    + auto.
Qed.

End Advance.

Section Spawn.

Variables (s s' : state) (i : nat) (t : goroutine) (n : Node.t)
          (cs : list goroutine).
Hypothesis Hord : orderly s.
Hypothesis Ht : nth_error (pool s) i = Some t.
Hypothesis Hrun : isReturned (at_ t) = false.
Hypothesis Hcs : Forall (fun c => parentOf (owned c) = Some i /\ at_ c = Spawned) cs.
Hypothesis Hheld : heldError (at_ t) = None.
Hypothesis Hpool :
  pool s' = update i (fun _ => mkGoroutine (owned t) (Waiting n None)) (pool s)
            ++ cs.
Hypothesis Hfail : failures s' = failures s.

Lemma spawn_lookup : forall j,
  nth_error (pool s') j
  = if (j =? i)%nat then Some (mkGoroutine (owned t) (Waiting n None))
    else if (j <? List.length (pool s))%nat then nth_error (pool s) j
         else nth_error cs (j - List.length (pool s)).
Proof. intro j. rewrite Hpool. apply (lookup_moved _ _ t). exact Ht. Qed.

Lemma spawn_old : forall j tj,
  j <> i -> nth_error (pool s) j = Some tj -> nth_error (pool s') j = Some tj.
Proof.
  intros j tj Hji Hj. rewrite spawn_lookup.
  apply Nat.eqb_neq in Hji. rewrite Hji.
  assert (Hlt : j < List.length (pool s)) by (apply nth_error_Some; congruence).
  apply Nat.ltb_lt in Hlt. rewrite Hlt. exact Hj.
Qed.

Lemma spawn_child : forall j c,
  nth_error cs j = Some c -> parentOf (owned c) = Some i /\ at_ c = Spawned.
Proof.
  intros j c Hc. rewrite Forall_forall in Hcs.
  apply Hcs. eapply nth_error_In. exact Hc.
Qed.

Lemma spawn_orderly : orderly s'.
Proof.
  assert (Hi : i < List.length (pool s)) by (apply nth_error_Some; congruence).
  constructor.
  - destruct (ord_root s Hord) as (t0 & H0 & Ho).
    destruct (Nat.eq_dec 0 i) as [E | H0i].
    + exists (mkGoroutine (owned t) (Waiting n None)).
      rewrite spawn_lookup. rewrite <- E in Ht. apply Nat.eqb_eq in E.
      rewrite E. simpl. split; [reflexivity | congruence].
    + exists t0. split; [apply spawn_old; assumption | exact Ho].
  - intros j tj Hj Ho. rewrite spawn_lookup in Hj. split_eqb.
    + same_goroutine. simpl in Ho. apply (ord_only_root s Hord i t Ht Ho).
    + split_ltb.
      * apply (ord_only_root s Hord j tj Hj Ho).
      * destruct (spawn_child _ _ Hj) as [Hp _]. rewrite Ho in Hp. discriminate.
  - intros j tj p Hj Hp. rewrite spawn_lookup in Hj. split_eqb.
    + same_goroutine. simpl in Hp. apply (ord_parent s Hord i t p Ht Hp).
    + split_ltb.
      * apply (ord_parent s Hord j tj p Hj Hp).
      * destruct (spawn_child _ _ Hj) as [Hp' _]. rewrite Hp in Hp'.
        inversion Hp'. lia.
  - intros j tj p Hj Hp Hr.
    destruct (Nat.eq_dec p i) as [-> | Hpi].
    + exists (mkGoroutine (owned t) (Waiting n None)), n, None.
      rewrite spawn_lookup, Nat.eqb_refl. auto.
    + assert (Hold : exists told, nth_error (pool s) j = Some told /\
                       parentOf (owned told) = Some p /\
                       isReturned (at_ told) = false).
      { rewrite spawn_lookup in Hj. split_eqb.
        - same_goroutine. exists t. auto.
        - split_ltb.
          + exists tj. auto.
          + destruct (spawn_child _ _ Hj) as [Hp' _]. congruence. }
      destruct Hold as (told & Hjo & Hpo & Hro).
      destruct (ord_waiting s Hord j told p Hjo Hpo Hro)
        as (tp & n' & gerr & Htp & Hw).
      exists tp, n', gerr. split; [apply spawn_old; assumption | exact Hw].
  - intros j tj p err Hj Hp Hr. rewrite spawn_lookup in Hj. split_eqb.
    + same_goroutine. discriminate.
    + split_ltb.
      * destruct (ord_reported s Hord j tj p err Hj Hp Hr) as (tp & Htp & Hf).
        destruct (Nat.eq_dec p i) as [-> | Hpi].
        -- rewrite Ht in Htp. inversion Htp. subst tp.
           unfold failed in Hf. rewrite Hheld in Hf. discriminate.
        -- exists tp. split; [apply spawn_old; assumption | exact Hf].
      * destruct (spawn_child _ _ Hj) as [_ Hs]. congruence.
  - intros j tj err Hj Hh. rewrite Hfail. rewrite spawn_lookup in Hj. split_eqb.
    + same_goroutine. discriminate.
    + split_ltb.
      * apply (ord_held s Hord j tj err Hj Hh).
      * destruct (spawn_child _ _ Hj) as [_ Hs]. rewrite Hs in Hh. discriminate.
  - rewrite Hfail. intro Hne.
    destruct (ord_raised s Hord Hne) as (j & tj & err & Hj & Hr).
    exists j, tj, err. split; [| exact Hr]. apply spawn_old; [| exact Hj].
    intros ->. rewrite Ht in Hj. inversion Hj. subst tj.
    rewrite Hr in Hrun. discriminate.
Qed.

End Spawn.

Section ReturnError.

Variables (s s' : state) (i : nat) (t : goroutine) (err : error).
Hypothesis Hord : orderly s.
Hypothesis Ht : nth_error (pool s) i = Some t.
Hypothesis Hrun : isReturned (at_ t) = false.
Hypothesis Hquiet : forall j tj, nth_error (pool s) j = Some tj ->
  parentOf (owned tj) = Some i -> isReturned (at_ tj) = true.
Hypothesis Hpool :
  pool s' = match parentOf (owned t) with
            | Some parent => update parent (reportTo err)
            | None => fun p => p
            end (update i (fun _ => mkGoroutine (owned t) (Returned (Some err)))
                        (pool s)).
Hypothesis Hfail :
  failures s' = failures s ++ [err] \/
  (failures s' = failures s /\ heldError (at_ t) = Some err).

Lemma return_lookup : forall j,
  nth_error (pool s') j
  = if (j =? i)%nat then Some (mkGoroutine (owned t) (Returned (Some err)))
    else match parentOf (owned t) with
         | Some parent =>
             if (j =? parent)%nat
             then option_map (reportTo err) (nth_error (pool s) j)
             else nth_error (pool s) j
         | None => nth_error (pool s) j
         end.
Proof.
  intro j. rewrite Hpool.
  destruct (parentOf (owned t)) as [parent|] eqn:Hp.
  - apply (lookup_reported _ _ t). + exact Ht.
    + pose proof (ord_parent s Hord i t parent Ht Hp). lia.
  - apply (lookup_moved_plain _ _ t). exact Ht.
Qed.

(** What became of an old goroutine other than the mover. *)
Lemma return_old : forall j told,
  j <> i -> nth_error (pool s) j = Some told ->
  exists tj, nth_error (pool s') j = Some tj /\
             owned tj = owned told /\
             isReturned (at_ tj) = isReturned (at_ told) /\
             (at_ tj = at_ told \/
              parentOf (owned t) = Some j /\
              exists n, at_ told = Waiting n None /\
                        at_ tj = Waiting n (Some err)).
Proof.
  intros j told Hji Hj. rewrite return_lookup.
  rewrite (proj2 (Nat.eqb_neq j i) Hji).
  destruct (parentOf (owned t)) as [parent|] eqn:Hp.
  - split_eqb.
    + subst parent. rewrite Hj. simpl. exists (reportTo err told).
      split; [reflexivity |]. split; [apply reportTo_owned |].
      split; [apply reportTo_returned |].
      destruct (reportTo_stage err told) as [H | H]; auto.
    + exists told. auto.
  - exists told. auto.
Qed.

Lemma return_back : forall j tj,
  j <> i -> nth_error (pool s') j = Some tj ->
  exists told, nth_error (pool s) j = Some told /\
               owned tj = owned told /\
               isReturned (at_ tj) = isReturned (at_ told) /\
               (at_ tj = at_ told \/
                parentOf (owned t) = Some j /\
                exists n, at_ told = Waiting n None /\
                          at_ tj = Waiting n (Some err)).
Proof.
  intros j tj Hji Hj.
  destruct (nth_error (pool s) j) as [told|] eqn:Hold.
  - destruct (return_old j told Hji Hold) as (tj' & Hj' & H).
    rewrite Hj in Hj'. inversion Hj'. subst tj'. exists told. auto.
  - rewrite return_lookup in Hj. rewrite (proj2 (Nat.eqb_neq j i) Hji) in Hj.
    destruct (parentOf (owned t)) as [parent|];
      [destruct (j =? parent)%nat |]; rewrite Hold in Hj; discriminate.
Qed.

Lemma return_err_raised : In err (failures s').
Proof.
  destruct Hfail as [-> | [-> Hh]].
  - apply in_or_app. right. left. reflexivity.
  - apply (ord_held s Hord i t err Ht Hh).
Qed.

Lemma return_failures_incl : incl (failures s) (failures s').
Proof.
  destruct Hfail as [-> | [-> _]].
  - apply incl_appl, incl_refl.
  - apply incl_refl.
Qed.

Lemma return_orderly : orderly s'.
Proof.
  constructor.
  - destruct (ord_root s Hord) as (t0 & H0 & Ho).
    destruct (Nat.eq_dec 0 i) as [E | H0i].
    + exists (mkGoroutine (owned t) (Returned (Some err))).
      rewrite return_lookup. rewrite <- E in Ht. apply Nat.eqb_eq in E.
      rewrite E. simpl. split; [reflexivity | congruence].
    + destruct (return_old 0 t0 H0i H0) as (t0' & H0' & Ho' & _).
      exists t0'. split; [exact H0' | congruence].
  - intros j tj Hj Ho. destruct (Nat.eq_dec j i) as [-> | Hji].
    + rewrite return_lookup, Nat.eqb_refl in Hj. same_goroutine.
      apply (ord_only_root s Hord i t Ht Ho).
    + destruct (return_back j tj Hji Hj) as (told & Hold & Ho' & _).
      apply (ord_only_root s Hord j told Hold). congruence.
  - intros j tj p Hj Hp. destruct (Nat.eq_dec j i) as [-> | Hji].
    + rewrite return_lookup, Nat.eqb_refl in Hj. same_goroutine.
      apply (ord_parent s Hord i t p Ht Hp).
    + destruct (return_back j tj Hji Hj) as (told & Hold & Ho' & _).
      apply (ord_parent s Hord j told p Hold). congruence.
  - intros j tj p Hj Hp Hr. destruct (Nat.eq_dec j i) as [-> | Hji].
    + rewrite return_lookup, Nat.eqb_refl in Hj. same_goroutine. discriminate.
    + destruct (return_back j tj Hji Hj) as (told & Hold & Ho' & Hr' & _).
      rewrite Ho' in Hp. rewrite Hr' in Hr.
      destruct (ord_waiting s Hord j told p Hold Hp Hr)
        as (tp & n & gerr & Htp & Hw).
      destruct (Nat.eq_dec p i) as [-> | Hpi].
      * rewrite (Hquiet j told Hold Hp) in Hr. discriminate.
      * destruct (return_old p tp Hpi Htp) as (tp' & Htp' & _ & _ & Hstage).
        exists tp', n.
        destruct Hstage as [Hsame | (_ & n' & Hn' & Hn'')].
        -- exists gerr. split; [exact Htp' | congruence].
        -- exists (Some err). split; [exact Htp' |]. congruence.
  - intros j tj p err' Hj Hp Hr. destruct (Nat.eq_dec j i) as [-> | Hji].
    + rewrite return_lookup, Nat.eqb_refl in Hj. same_goroutine. simpl in Hp.
      destruct (ord_waiting s Hord i t p Ht Hp Hrun)
        as (tp & n & gerr & Htp & Hw).
      assert (Hpi : p <> i) by (pose proof (ord_parent s Hord i t p Ht Hp); lia).
      exists (reportTo err tp). split.
      * rewrite return_lookup. apply Nat.eqb_neq in Hpi. rewrite Hpi, Hp.
        rewrite Nat.eqb_refl, Htp. reflexivity.
      * destruct (reportTo_waiting err tp n gerr Hw) as (g' & _ & Hf & _).
        exact Hf.
    + destruct (return_back j tj Hji Hj) as (told & Hold & Ho' & _ & Hstage).
      rewrite Ho' in Hp.
      assert (Hr' : at_ told = Returned (Some err')).
      { destruct Hstage as [<- | (_ & n & _ & Hn)]; [exact Hr | congruence]. }
      destruct (ord_reported s Hord j told p err' Hold Hp Hr') as (tp & Htp & Hf).
      destruct (Nat.eq_dec p i) as [-> | Hpi].
      * exists (mkGoroutine (owned t) (Returned (Some err))).
        rewrite return_lookup, Nat.eqb_refl. auto.
      * destruct (return_old p tp Hpi Htp) as (tp' & Htp' & _ & _ & Hstage').
        exists tp'. split; [exact Htp' |].
        destruct Hstage' as [-> | (_ & n & _ & ->)]; [exact Hf | reflexivity].
  - intros j tj err' Hj Hh. destruct (Nat.eq_dec j i) as [-> | Hji].
    + rewrite return_lookup, Nat.eqb_refl in Hj. same_goroutine. simpl in Hh.
      inversion Hh. subst err'. apply return_err_raised.
    + destruct (return_back j tj Hji Hj) as (told & Hold & _ & _ & Hstage).
      destruct Hstage as [Hsame | (_ & n & _ & Hn)].
      * apply return_failures_incl. rewrite Hsame in Hh.
        apply (ord_held s Hord j told err' Hold Hh).
      * rewrite Hn in Hh. simpl in Hh. inversion Hh. subst err'.
        apply return_err_raised.
  - intros _. exists i, (mkGoroutine (owned t) (Returned (Some err))), err.
    rewrite return_lookup, Nat.eqb_refl. auto.
Qed.

End ReturnError.

Lemma changes_orderly : forall s s' i t,
  orderly s -> nth_error (pool s) i = Some t ->
  isReturned (at_ t) = false ->
  (forall n gerr, at_ t = Waiting n gerr -> childrenReturned i (pool s) = true) ->
  changes i t s s' -> orderly s'.
Proof.
  intros s s' i t Hord Ht Hrun Hjoin Hch.
  pose proof (mover_is_quiet s i t Hord Ht Hjoin) as Hquiet.
  destruct Hch as [o' st' Hpar Hroot Hst1 Hst2 Hst3 Hheld Hpool Hfail
                  | n cs Hcs Hheld Hpool Hfail
                  | Hheld Hpool Hfail
                  | err Hpool Hfail].
  - apply (advance_orderly s s' i t o' st'); try assumption.
    intros err ->. discriminate.
  - apply (spawn_orderly s s' i t n cs); assumption.
  - apply (advance_orderly s s' i t (owned t) (Returned None)); try assumption;
      try reflexivity.
    discriminate.
  - apply (return_orderly s s' i t err); assumption.
Qed.

Lemma start_orderly : forall r c, orderly (start r c).
Proof.
  intros r c. constructor; simpl.
  - eexists. split; reflexivity.
  - intros [|i] t H Ho; [reflexivity |]. destruct i; discriminate.
  - intros [|[|i]] t p H Hp; try discriminate.
    inversion H. subst t. discriminate.
  - intros [|[|i]] t p H Hp; try discriminate.
    inversion H. subst t. discriminate.
  - intros [|[|i]] t p err H Hp; try discriminate.
    inversion H. subst t. discriminate.
  - intros [|[|i]] t err H Hh; try discriminate.
    inversion H. subst t. discriminate.
  - intros H. destruct (H eq_refl).
Qed.

(** The goroutines of a run hang together in every state. *)
Lemma reachable_orderly : forall w r c s, reachable w r c s -> orderly s.
Proof.
  intros w r c. apply reachable_ind.
  - apply start_orderly.
  - intros i t s s' Hord Ht Hm.
    destruct (moves_changes w r i t s s' Hm Ht) as (Hrun & Hjoin & Hch).
    eapply changes_orderly; eassumption.
Qed.

(** Once the root call has returned, every goroutine has. *)
Lemma root_returned_all_returned : forall s t0 res,
  orderly s -> nth_error (pool s) 0 = Some t0 -> at_ t0 = Returned res ->
  forall j tj, nth_error (pool s) j = Some tj -> isReturned (at_ tj) = true.
Proof.
  intros s t0 res Hord H0 Hres j.
  induction j as [j IH] using lt_wf_ind. intros tj Hj.
  destruct (parentOf (owned tj)) as [p|] eqn:Hp.
  - destruct (isReturned (at_ tj)) eqn:Hr; [reflexivity |].
    destruct (ord_waiting s Hord j tj p Hj Hp Hr) as (tp & n & gerr & Htp & Hw).
    pose proof (ord_parent s Hord j tj p Hj Hp) as Hlt.
    pose proof (IH p Hlt tp Htp) as Hret. rewrite Hw in Hret. discriminate.
  - assert (j = 0).
    { apply (ord_only_root s Hord j tj Hj).
      destruct (owned tj); [reflexivity | discriminate]. }
    subst j. rewrite H0 in Hj. inversion Hj. subst tj. rewrite Hres. reflexivity.
Qed.

(** Once the root call has returned, an error that some goroutine
    returned has come up to it. *)
Lemma error_comes_up : forall s t0 res,
  orderly s -> nth_error (pool s) 0 = Some t0 -> at_ t0 = Returned res ->
  forall j tj err, nth_error (pool s) j = Some tj ->
                   at_ tj = Returned (Some err) -> res <> None.
Proof.
  intros s t0 res Hord H0 Hres j.
  induction j as [j IH] using lt_wf_ind. intros tj err Hj Hr.
  destruct (parentOf (owned tj)) as [p|] eqn:Hp.
  - destruct (ord_reported s Hord j tj p err Hj Hp Hr) as (tp & Htp & Hf).
    pose proof (ord_parent s Hord j tj p Hj Hp) as Hlt.
    pose proof (root_returned_all_returned s t0 res Hord H0 Hres p tp Htp) as Hret.
    destruct (at_ tp) as [| | | | | [e|]] eqn:Hat; try discriminate.
    apply (IH p Hlt tp e Htp Hat).
  - assert (j = 0).
    { apply (ord_only_root s Hord j tj Hj).
      destruct (owned tj); [reflexivity | discriminate]. }
    subst j. rewrite H0 in Hj. inversion Hj. subst tj.
    rewrite Hres in Hr. inversion Hr. discriminate.
Qed.

(** What [Read] returns at the end of a run: the graph when no branch
    raised an error, and otherwise no graph and one of the errors
    raised. *)
Lemma Read_returns : forall w r c s res,
  reachable w r c s -> ReadResult s = Some res ->
  (failures s = [] /\ res = (Some (graph s), None)) \/
  (exists err, In err (failures s) /\ res = (None, Some err)).
Proof.
  intros w r c s res Hreach Hres.
  pose proof (reachable_orderly w r c s Hreach) as Hord.
  unfold ReadResult in Hres.
  destruct (nth_error (pool s) 0) as [t0|] eqn:H0; [| discriminate].
  destruct (at_ t0) as [| | | | | [err|]] eqn:Hat; try discriminate;
    inversion Hres; subst res.
  - right. exists err. split; [| reflexivity].
    apply (ord_held s Hord 0 t0 err H0). rewrite Hat. reflexivity.
  - left. split; [| reflexivity].
    destruct (failures s) as [|e l] eqn:Hf; [reflexivity |].
    assert (Hne : failures s <> []) by (rewrite Hf; discriminate).
    destruct (ord_raised s Hord Hne) as (j & tj & err & Hj & Hr).
    destruct (error_comes_up s t0 None Hord H0 Hat j tj err Hj Hr eq_refl).
Qed.

(** The errors raised are never taken back. *)
Lemma step_failures : forall w r i s,
  exists more, failures (step w r i s) = failures s ++ more.
Proof.
  intros w r i s. destruct (step_moves w r i s) as [-> | (t & Ht & Hm)].
  - exists []. symmetry. apply app_nil_r.
  - destruct Hm; simpl; try (exists []; symmetry; apply app_nil_r);
      eexists; reflexivity.
Qed.

Lemma run_failures : forall w r sched s,
  exists more, failures (run w r sched s) = failures s ++ more.
Proof.
  intros w r sched. induction sched as [|i l IH]; intro s.
  - exists []. symmetry. apply app_nil_r.
  - destruct (IH (step w r i s)) as [more Hmore].
    destruct (step_failures w r i s) as [more' Hmore'].
    exists (more' ++ more). unfold run in *. simpl. rewrite Hmore, Hmore'.
    symmetry. apply app_assoc.
Qed.

Lemma reachable_run : forall w r c sched s,
  reachable w r c s -> reachable w r c (run w r sched s).
Proof.
  intros w r c sched s [sched0 ->]. exists (sched0 ++ sched).
  unfold run. rewrite fold_left_app. reflexivity.
Qed.

(** After a branch has raised an error, [Read] can only fail, with one
    of the errors raised. *)
Lemma Read_fails_after : forall w r c s sched res,
  reachable w r c s -> failures s <> [] ->
  ReadResult (run w r sched s) = Some res ->
  exists err, In err (failures (run w r sched s)) /\ res = (None, Some err).
Proof.
  intros w r c s sched res Hreach Hne Hres.
  destruct (Read_returns w r c _ res (reachable_run w r c sched s Hreach) Hres)
    as [[Hnil _] | H]; [| exact H].
  destruct (run_failures w r sched s) as [more Hmore].
  rewrite Hmore in Hnil. apply app_eq_nil in Hnil. tauto.
Qed.

(** ** Every document is read once *)

Lemma pending_app : forall p q, pending (p ++ q) = pending p ++ pending q.
Proof. intros. unfold pending. apply flat_map_app. Qed.

Lemma pending_update : forall f p i t,
  nth_error p i = Some t ->
  Permutation (stageReads (at_ t) ++ pending (update i f p))
              (stageReads (at_ (f t)) ++ pending p).
Proof.
  intros f p. induction p as [|x rest IH]; intros [|i] t Ht; simpl in Ht;
    try discriminate.
  - inversion Ht. subst x. simpl. apply Permutation_app_swap_app.
  - simpl. specialize (IH i t Ht).
    eapply Permutation_trans; [apply Permutation_app_swap_app |].
    eapply Permutation_trans; [| apply Permutation_app_swap_app].
    apply Permutation_app_head. exact IH.
Qed.

Lemma pending_update_same : forall f p i,
  (forall t, stageReads (at_ (f t)) = stageReads (at_ t)) ->
  pending (update i f p) = pending p.
Proof.
  intros f p i Hf. revert i. induction p as [|x rest IH]; intros [|i]; simpl;
    try reflexivity.
  - rewrite Hf. reflexivity.
  - rewrite IH. reflexivity.
Qed.

Lemma pending_report : forall q err p, pending (report q err p) = pending p.
Proof.
  intros q err p. unfold report. apply pending_update_same.
  intro t. destruct (at_ t) as [| | | n [e|] | |] eqn:H; simpl; rewrite ?H;
    reflexivity.
Qed.

Lemma pending_setStage : forall i st p t,
  nth_error p i = Some t ->
  Permutation (stageReads (at_ t) ++ pending (setStage i st p))
              (stageReads st ++ pending p).
Proof.
  intros i st p t Ht. unfold setStage.
  apply (pending_update (fun t => mkGoroutine (owned t) st) p i t Ht).
Qed.

Lemma pending_goReturn : forall i t res p,
  nth_error p i = Some t ->
  Permutation (stageReads (at_ t) ++ pending (goReturn i t res p)) (pending p).
Proof.
  intros i t res p Ht. unfold goReturn.
  destruct res as [err|]; [destruct (owned t) |]; rewrite ?pending_report;
    apply (pending_setStage i (Returned _) p t Ht).
Qed.

Lemma pending_includeReturn : forall i t n res p,
  nth_error p i = Some t ->
  Permutation (stageReads (at_ t) ++ pending (includeReturn i t n res p))
              (pending p).
Proof.
  intros i t n res p Ht. unfold includeReturn.
  destruct (owned t); destruct res; try apply pending_goReturn; try exact Ht.
  apply (pending_setStage i (Linking n) p t Ht).
Qed.

(** [loadNodeContent] never enters [readNode]. *)
Lemma loadNodeContent_readNodes : forall w r nd s,
  readNodes (trace (snd (loadNodeContent w r nd s))) = readNodes (trace s).
Proof.
  intros w r nd s.
  destruct (Node.Remote nd) eqn:Hrem.
  - destruct (NewCache w (tempDir r)) as [e|] eqn:Hnew.
    + unfold loadNodeContent. rewrite Hrem, Hnew. reflexivity.
    + destruct (offline r) eqn:Hoff.
      * rewrite (loadNodeContent_offline w r nd s Hrem Hnew Hoff).
        destruct (readCached w (cache s) nd); simpl;
          repeat rewrite readNodes_app; simpl; rewrite ?app_nil_r; reflexivity.
      * destruct (Read_ w nd) as [err | b] eqn:Hread.
        -- rewrite (loadNodeContent_fetch_failed w r nd s err Hrem Hnew Hoff Hread).
           cbv zeta.
           destruct (Is_TaskfileNetworkTimeoutError err);
             [destruct (download r);
              [| destruct (readCached w (cache s) nd)] |];
             simpl; repeat rewrite readNodes_app; simpl; rewrite ?app_nil_r;
             reflexivity.
        -- rewrite (loadNodeContent_fetched w r nd s b Hrem Hnew Hoff Hread).
           cbv zeta.
           destruct (choosePrompt _ _ =? "");
             [| destruct (answer r _);
                [| destruct (fault w op_writeChecksum _);
                   [| destruct (fault w op_write _)]]];
             simpl; repeat rewrite readNodes_app; simpl; rewrite ?app_nil_r;
             reflexivity.
  - unfold_load. rewrite Hrem. simpl. rewrite readNodes_app. simpl.
    apply app_nil_r.
Qed.

(** A call of [readNode] enters [readNode] once, for its node. *)
Lemma readNode_readNodes : forall w r nd s,
  readNodes (trace (snd (readNode w r nd s)))
  = readNodes (trace s) ++ [Node.Location nd].
Proof.
  intros w r nd s. unfold readNode, bind, emit. simpl.
  pose proof (loadNodeContent_readNodes w r nd
                (mkStore (cache s) (trace s ++ [EvReadNode (Node.Location nd)])))
    as Hload.
  destruct (loadNodeContent w r nd _) as [[err | b] s1]; simpl in *.
  - rewrite Hload, readNodes_app. reflexivity.
  - assert (Hs1 : readNodes (trace s1 ++ [EvUnmarshal b])
                  = readNodes (trace s) ++ [Node.Location nd]).
    { rewrite readNodes_app, Hload, readNodes_app. simpl. apply app_nil_r. }
    destruct (Unmarshal w b) as [err | tf].
    + destruct (As_TaskfileDecodeError err) as [[line column] |]; exact Hs1.
    + destruct (Taskfile.Version tf); exact Hs1.
Qed.

Lemma linkEdge_vertices : forall g s t include,
  vertices (fst (linkEdge g s t include)) = vertices g.
Proof.
  intros g s t include.
  destruct (linkEdge_linked g s t include); reflexivity.
Qed.

Lemma AddVertex_vertices : forall g v g',
  AddVertex g v = inr g' -> vertices g' = vertices g ++ [v].
Proof.
  intros g v g'. unfold AddVertex.
  destruct (hasVertex g (TaskfileVertex.URI v)); [discriminate |].
  intro H. inversion H. reflexivity.
Qed.

Lemma moves_readOnce : forall w r i t s s',
  moves w r i t s s' -> nth_error (pool s) i = Some t ->
  readOnce s -> readOnce s'.
Proof.
  intros w r i t s s' Hm Ht Hinv. unfold readOnce in *.
  destruct Hm as [parent nd vars include err Hat Hown Hres
                 | parent nd vars include Hat Hown Hres
                 | parent nd vars include include' n' Hat Hown Hres
                 | n Hat Hadd | n g' Hat Hadd
                 | n err m' Hat Hread | n tf m' Hat Hread
                 | n gerr Hat Hjoin
                 | parent nd vars include n Hat Hown];
    cbn [graph mem pool failures].
  - pose proof (pending_goReturn i t (Some err) (pool s) Ht) as Hp.
    rewrite Hat in Hp. simpl in Hp. rewrite Hp. exact Hinv.
  - pose proof (pending_goReturn i t None (pool s) Ht) as Hp.
    rewrite Hat in Hp. simpl in Hp. rewrite Hp. exact Hinv.
  - pose proof (pending_update
                  (fun _ => mkGoroutine (ByGo parent nd vars include')
                                        (Including n'))
                  (pool s) i t Ht) as Hp.
    rewrite Hat in Hp. simpl in Hp. rewrite Hp. exact Hinv.
  - pose proof (pending_includeReturn i t n None (pool s) Ht) as Hp.
    rewrite Hat in Hp. simpl in Hp. rewrite Hp. exact Hinv.
  - rewrite (AddVertex_vertices _ _ _ Hadd), map_app. simpl.
    pose proof (pending_setStage i (Reading n) (pool s) t Ht) as Hp.
    rewrite Hat in Hp. simpl in Hp.
    eapply Permutation_trans; [apply Permutation_app_tail; exact Hinv |].
    rewrite <- app_assoc. apply Permutation_app_head.
    eapply Permutation_trans; [| apply Permutation_sym; exact Hp].
    apply Permutation_sym, Permutation_cons_append.
  - pose proof (readNode_readNodes w r n (mem s)) as Htr.
    rewrite Hread in Htr. simpl in Htr. rewrite Htr.
    pose proof (pending_includeReturn i t n (Some err) (pool s) Ht) as Hp.
    rewrite Hat in Hp. simpl in Hp.
    rewrite Hinv, <- Hp, <- app_assoc. reflexivity.
  - rewrite setVertexTaskfile_URIs.
    pose proof (readNode_readNodes w r n (mem s)) as Htr.
    rewrite Hread in Htr. simpl in Htr. rewrite Htr.
    pose proof (pending_setStage i (Waiting n None) (pool s) t Ht) as Hp.
    rewrite Hat in Hp. simpl in Hp.
    rewrite pending_app.
    assert (Hcs : pending (map (fun include =>
                     mkGoroutine
                       (ByGo i n (Merge (GetEnviron w) (Taskfile.Vars tf)) include)
                       Spawned) (Taskfile.Includes tf)) = []).
    { induction (Taskfile.Includes tf); [reflexivity | exact IHl]. }
    rewrite Hcs, app_nil_r, Hinv, <- Hp, <- app_assoc. reflexivity.
  - pose proof (pending_includeReturn i t n gerr (pool s) Ht) as Hp.
    rewrite Hat in Hp. simpl in Hp. rewrite Hp. exact Hinv.
  - rewrite linkEdge_vertices.
    pose proof (pending_goReturn i t
                  (snd (linkEdge (graph s) (Node.Location nd) (Node.Location n)
                                 include)) (pool s) Ht) as Hp.
    rewrite Hat in Hp. simpl in Hp. rewrite Hp. exact Hinv.
Qed.

Lemma reachable_readOnce : forall w r c s, reachable w r c s -> readOnce s.
Proof.
  intros w r c. apply reachable_ind.
  - unfold readOnce. simpl. constructor.
  - intros i t s s' Hinv Ht Hm. eapply moves_readOnce; eassumption.
Qed.

Lemma pending_none : forall p,
  (forall j tj, nth_error p j = Some tj -> isReturned (at_ tj) = true) ->
  pending p = [].
Proof.
  induction p as [|x rest IH]; intro H; [reflexivity |]. simpl.
  rewrite IH.
  - pose proof (H 0 x eq_refl) as Hx. destruct (at_ x); try discriminate.
    reflexivity.
  - intros j tj Hj. apply (H (S j) tj Hj).
Qed.

(** When [Read] returns, the documents handed to [readNode] are the
    vertices of the graph, each of them once. *)
Lemma Read_read_each_once : forall w r c s res,
  reachable w r c s -> ReadResult s = Some res ->
  Permutation (map TaskfileVertex.URI (vertices (graph s)))
              (readNodes (trace (mem s))).
Proof.
  intros w r c s res Hreach Hres.
  pose proof (reachable_readOnce w r c s Hreach) as Hinv.
  pose proof (reachable_orderly w r c s Hreach) as Hord.
  unfold ReadResult in Hres.
  destruct (nth_error (pool s) 0) as [t0|] eqn:H0; [| discriminate].
  assert (Hret : exists res0, at_ t0 = Returned res0).
  { destruct (at_ t0); try discriminate. eexists. reflexivity. }
  destruct Hret as [res0 Hret].
  unfold readOnce in Hinv.
  rewrite (pending_none _ (root_returned_all_returned s t0 res0 Hord H0 Hret)),
    app_nil_r in Hinv.
  exact Hinv.
Qed.

(** ** Every run of a finite world *)

Lemma known_In : forall fp s seen, known fp s seen = true -> In s (map snd seen).
Proof.
  intros fp s seen. induction seen as [|[fp' s'] rest IH]; simpl; [discriminate |].
  destruct (sameNumbers fp fp').
  - destruct (state_eq_dec s s') as [-> | _]; auto.
  - auto.
Qed.

Lemma step_beyond_the_pool : forall w r i s,
  List.length (pool s) <= i -> step w r i s = s.
Proof.
  intros w r i s Hi. unfold step.
  apply nth_error_None in Hi. rewrite Hi. reflexivity.
Qed.

Lemma closed_step : forall w r seen s i,
  closed w r seen = true -> In s (map snd seen) ->
  In (step w r i s) (map snd seen).
Proof.
  intros w r seen s i Hclosed Hin.
  destruct (Nat.lt_ge_cases i (List.length (pool s))) as [Hlt | Hge].
  - unfold closed in Hclosed. rewrite forallb_forall in Hclosed.
    apply in_map_iff in Hin. destruct Hin as ([fp s0] & Hs & Hin).
    simpl in Hs. subst s0. specialize (Hclosed _ Hin). simpl in Hclosed.
    rewrite forallb_forall in Hclosed.
    apply (known_In (fingerprint (step w r i s))). apply Hclosed.
    apply in_seq. lia.
  - rewrite (step_beyond_the_pool w r i s Hge). exact Hin.
Qed.

Lemma closed_run : forall w r seen sched s,
  closed w r seen = true -> In s (map snd seen) ->
  In (run w r sched s) (map snd seen).
Proof.
  intros w r seen sched. induction sched as [|i l IH]; intros s Hc Hin.
  - exact Hin.
  - apply (IH (step w r i s) Hc). apply closed_step; assumption.
Qed.

(** A property checked on the collected states holds in every state
    of every run. *)
Lemma everywhere_sound : forall w r c fuel ok,
  everywhere w r c fuel ok = true ->
  forall sched, ok (run w r sched (start r c)) = true.
Proof.
  intros w r c fuel ok H sched. unfold everywhere in H.
  set (seen := explore w r fuel [start r c] [tagged (start r c)]) in *.
  destruct (known (fingerprint (start r c)) (start r c) seen) eqn:Hstart;
    [| discriminate].
  destruct (closed w r seen) eqn:Hclosed; [| discriminate].
  rewrite forallb_forall in H.
  pose proof (closed_run w r seen sched (start r c) Hclosed
                (known_In _ _ _ Hstart)) as Hin.
  apply in_map_iff in Hin. destruct Hin as ([fp s] & Hs & Hin).
  simpl in Hs. subst s. apply (H _ Hin).
Qed.


Lemma atReturn_sound : forall w r c fuel ok,
  everywhere w r c fuel (atReturn ok) = true ->
  forall sched res, Read w r c sched = Some res ->
                    ok (run w r sched (start r c)) = true.
Proof.
  intros w r c fuel ok H sched res Hres.
  pose proof (everywhere_sound w r c fuel _ H sched) as Hs.
  unfold atReturn in Hs. unfold Read in Hres. rewrite Hres in Hs. exact Hs.
Qed.

Lemma succeeded_spec : forall s,
  succeeded s = true -> ReadResult s = Some (Some (graph s), None).
Proof.
  intros s. unfold succeeded.
  destruct (ReadResult s) as [[[g|] [err|]]|]; try discriminate.
  destruct (graph_eq_dec g (graph s)) as [-> | _]; [reflexivity | discriminate].
Qed.

Lemma failedWith_spec : forall err s,
  failedWith err s = true -> ReadResult s = Some (None, Some err).
Proof.
  intros err s. unfold failedWith.
  destruct (ReadResult s) as [[[g|] [err'|]]|]; try discriminate.
  destruct (error_eq_dec err' err) as [-> | _]; [reflexivity | discriminate].
Qed.

Lemma hasEdge_spec : forall g source target weight,
  hasEdge g source target weight = true ->
  exists e, GetEdge g source target = inr e /\
            Edge.Weight e = weight /\ List.length (Edge.Data e) = weight.
Proof.
  intros g source target weight. unfold hasEdge.
  destruct (GetEdge g source target) as [err | e]; [discriminate |].
  destruct (Edge.Weight e =? weight)%nat eqn:Hw; [| discriminate].
  intro Hd. exists e. apply Nat.eqb_eq in Hw, Hd. auto.
Qed.

(** A includes B and B includes A: whatever the schedule, when [Read]
    returns it returns the cycle error naming the edge A -> B. *)
Lemma Read_two_cycle_always : forall sched res,
  Read Examples.twoCycle (Examples.reader "A") Cache.empty sched = Some res ->
  res = (None, Some (TaskfileCycleError "A" "B")).
Proof.
  intros sched res Hres.
  assert (Hok : everywhere Examples.twoCycle (Examples.reader "A") Cache.empty 100
                  (atReturn (failedWith (TaskfileCycleError "A" "B"))) = true)
    by (vm_compute; reflexivity).
  pose proof (atReturn_sound _ _ _ _ _ Hok sched res Hres) as H. clear Hok.
  apply failedWith_spec in H. unfold Read in Hres. congruence.
Qed.

(** The diamond: whatever the schedule, when [Read] returns it returns
    the graph, which has four vertices, D among them, and four edges,
    B -> D and C -> D among them, each of weight 1; and D was handed
    to [readNode] once. *)
Lemma Read_diamond_always : forall sched res,
  Read Examples.diamond (Examples.reader "A") Cache.empty sched = Some res ->
  let s := run Examples.diamond (Examples.reader "A") sched
               (start (Examples.reader "A") Cache.empty) in
  res = (Some (graph s), None) /\
  List.length (vertices (graph s)) = 4 /\
  hasVertex (graph s) "D" = true /\
  List.length (edges (graph s)) = 4 /\
  (exists e, GetEdge (graph s) "B" "D" = inr e /\
             Edge.Weight e = 1 /\ List.length (Edge.Data e) = 1) /\
  (exists e, GetEdge (graph s) "C" "D" = inr e /\
             Edge.Weight e = 1 /\ List.length (Edge.Data e) = 1) /\
  count_occ string_dec (readNodes (trace (mem s))) "D" = 1.
Proof.
  intros sched res Hres s.
  assert (Hok : everywhere Examples.diamond (Examples.reader "A") Cache.empty 5000
                  (atReturn (fun s =>
                     if succeeded s then
                     if (List.length (vertices (graph s)) =? 4)%nat then
                     if hasVertex (graph s) "D" then
                     if (List.length (edges (graph s)) =? 4)%nat then
                     if hasEdge (graph s) "B" "D" 1 then
                     if hasEdge (graph s) "C" "D" 1 then
                       (count_occ string_dec (readNodes (trace (mem s))) "D" =? 1)%nat
                     else false else false else false else false else false
                     else false)) = true)
    by (vm_compute; reflexivity).
  pose proof (atReturn_sound _ _ _ _ _ Hok sched res Hres) as H. clear Hok.
  cbv beta in H. fold s in H. unfold Read in Hres. fold s in Hres.
  destruct (succeeded s) eqn:H1; [| discriminate H].
  destruct (List.length (vertices (graph s)) =? 4)%nat eqn:H2; [| discriminate H].
  destruct (hasVertex (graph s) "D") eqn:H3; [| discriminate H].
  destruct (List.length (edges (graph s)) =? 4)%nat eqn:H4; [| discriminate H].
  destruct (hasEdge (graph s) "B" "D" 1) eqn:H5; [| discriminate H].
  destruct (hasEdge (graph s) "C" "D" 1) eqn:H6; [| discriminate H].
  apply succeeded_spec in H1. apply Nat.eqb_eq in H2, H4, H.
  apply hasEdge_spec in H5, H6.
  repeat split; try assumption. congruence.
Qed.

(** A includes B through two declarations: whatever the schedule,
    when [Read] returns it returns the graph, whose one edge is
    A -> B, with a payload of two declarations and weight 2. *)
Lemma Read_twice_always : forall sched res,
  Read Examples.twice (Examples.reader "A") Cache.empty sched = Some res ->
  let s := run Examples.twice (Examples.reader "A") sched
               (start (Examples.reader "A") Cache.empty) in
  res = (Some (graph s), None) /\
  List.length (edges (graph s)) = 1 /\
  exists e, GetEdge (graph s) "A" "B" = inr e /\
            Edge.Weight e = 2 /\ List.length (Edge.Data e) = 2.
Proof.
  intros sched res Hres s.
  assert (Hok : everywhere Examples.twice (Examples.reader "A") Cache.empty 5000
                  (atReturn (fun s =>
                     if succeeded s then
                     if (List.length (edges (graph s)) =? 1)%nat then
                       hasEdge (graph s) "A" "B" 2
                     else false else false)) = true)
    by (vm_compute; reflexivity).
  pose proof (atReturn_sound _ _ _ _ _ Hok sched res Hres) as H. clear Hok.
  cbv beta in H. fold s in H. unfold Read in Hres. fold s in Hres.
  destruct (succeeded s) eqn:H1; [| discriminate H].
  destruct (List.length (edges (graph s)) =? 1)%nat eqn:H2; [| discriminate H].
  apply succeeded_spec in H1. apply Nat.eqb_eq in H2. apply hasEdge_spec in H.
  repeat split; try assumption. congruence.
Qed.

(** A includes a file that does not exist: whatever the schedule,
    when [Read] returns it returns the graph with the one vertex A
    and no edge if the include is optional, and the error of
    [NewNode] and no graph if it is not. *)
Lemma Read_missing_always : forall sched,
  (forall res,
     Read (Examples.missing true) (Examples.reader "A") Cache.empty sched
     = Some res ->
     let s := run (Examples.missing true) (Examples.reader "A") sched
                  (start (Examples.reader "A") Cache.empty) in
     res = (Some (graph s), None) /\
     map TaskfileVertex.URI (vertices (graph s)) = ["A"] /\
     edges (graph s) = []) /\
  (forall res,
     Read (Examples.missing false) (Examples.reader "A") Cache.empty sched
     = Some res ->
     res = (None, Some ErrNotExist)).
Proof.
  intro sched. split.
  - intros res Hres s.
    assert (Hok : everywhere (Examples.missing true) (Examples.reader "A")
                    Cache.empty 100
                    (atReturn (fun s =>
                       if succeeded s then
                       if strings_eq_dec
                            (map TaskfileVertex.URI (vertices (graph s))) ["A"]
                       then (if edges_eq_dec (edges (graph s)) [] then true else false)
                       else false else false)) = true)
      by (vm_compute; reflexivity).
    pose proof (atReturn_sound _ _ _ _ _ Hok sched res Hres) as H. clear Hok.
    cbv beta in H. fold s in H. unfold Read in Hres. fold s in Hres.
    destruct (succeeded s) eqn:H1; [| discriminate H].
    destruct (strings_eq_dec _ _) as [H2 | _]; [| discriminate H].
    destruct (edges_eq_dec _ _) as [H3 | _]; [| discriminate H].
    apply succeeded_spec in H1. repeat split; try assumption. congruence.
  - intros res Hres.
    assert (Hok : everywhere (Examples.missing false) (Examples.reader "A")
                    Cache.empty 100
                    (atReturn (failedWith ErrNotExist)) = true)
      by (vm_compute; reflexivity).
    pose proof (atReturn_sound _ _ _ _ _ Hok sched res Hres) as H. clear Hok.
    apply failedWith_spec in H. unfold Read in Hres. congruence.
Qed.

(** ** Steps of a goroutine, by the line it stands at *)

Lemma step_spawned : forall w r i s t parent nd vars include,
  nth_error (pool s) i = Some t -> at_ t = Spawned ->
  owned t = ByGo parent nd vars include ->
  step w r i s =
  match resolveInclude w r nd vars include with
  | Rerr err =>
      mkState (graph s) (mem s) (goReturn i t (Some err) (pool s))
              (failures s ++ [err])
  | Rskip =>
      mkState (graph s) (mem s) (goReturn i t None (pool s)) (failures s)
  | Rnode include' includeNode =>
      mkState (graph s) (mem s)
              (update i (fun _ => mkGoroutine (ByGo parent nd vars include')
                                              (Including includeNode))
                      (pool s))
              (failures s)
  end.
Proof.
  intros w r i s t parent nd vars include Ht Hat Hown.
  unfold step. rewrite Ht, Hat, Hown. reflexivity.
Qed.

Lemma step_including : forall w r i s t n,
  nth_error (pool s) i = Some t -> at_ t = Including n ->
  step w r i s =
  if hasVertex (graph s) (Node.Location n)
  then mkState (graph s) (mem s) (includeReturn i t n None (pool s)) (failures s)
  else mkState (mkGraph (vertices (graph s)
                         ++ [TaskfileVertex.mk (Node.Location n) None])
                        (edges (graph s)))
               (mem s) (setStage i (Reading n) (pool s)) (failures s).
Proof.
  intros w r i s t n Ht Hat. unfold step. rewrite Ht, Hat.
  unfold AddVertex. simpl.
  destruct (hasVertex (graph s) (Node.Location n)); reflexivity.
Qed.

Lemma step_reading : forall w r i s t n,
  nth_error (pool s) i = Some t -> at_ t = Reading n ->
  mem (step w r i s) = snd (readNode w r n (mem s)).
Proof.
  intros w r i s t n Ht Hat. unfold step. rewrite Ht, Hat.
  destruct (readNode w r n (mem s)) as [[err | tf] m']; reflexivity.
Qed.

Lemma step_linking : forall w r i s t parent nd vars include n,
  nth_error (pool s) i = Some t -> at_ t = Linking n ->
  owned t = ByGo parent nd vars include ->
  step w r i s =
  let out := linkEdge (graph s) (Node.Location nd) (Node.Location n) include in
  mkState (fst out) (mem s) (goReturn i t (snd out) (pool s))
          (failures s ++ match snd out with Some err => [err] | None => [] end).
Proof.
  intros w r i s t parent nd vars include n Ht Hat Hown.
  unfold step. rewrite Ht, Hat, Hown.
  destruct (linkEdge (graph s) (Node.Location nd) (Node.Location n) include).
  reflexivity.
Qed.

(** The stage of goroutine [i] after it returned. *)
Lemma goReturn_self : forall s i t res,
  orderly s -> nth_error (pool s) i = Some t ->
  nth_error (goReturn i t res (pool s)) i
  = Some (mkGoroutine (owned t) (Returned res)).
Proof.
  intros s i t res Hord Ht. destruct res as [err|].
  - rewrite (goReturn_error i t err (pool s) Ht).
    destruct (parentOf (owned t)) as [p|] eqn:Hp.
    + rewrite (lookup_reported (pool s) i t _ p err i Ht).
      * rewrite Nat.eqb_refl. reflexivity.
      * pose proof (ord_parent s Hord i t p Ht Hp). lia.
    + rewrite (lookup_moved_plain (pool s) i t _ i Ht), Nat.eqb_refl.
      reflexivity.
  - rewrite (goReturn_nil i t (pool s) Ht).
    rewrite (lookup_moved_plain (pool s) i t _ i Ht), Nat.eqb_refl. reflexivity.
Qed.

Lemma setStage_self : forall p i t st,
  nth_error p i = Some t ->
  nth_error (setStage i st p) i = Some (mkGoroutine (owned t) st).
Proof.
  intros p i t st Ht. rewrite (setStage_const i st p t Ht).
  rewrite (lookup_moved_plain p i t _ i Ht), Nat.eqb_refl. reflexivity.
Qed.

Lemma reachable_runs : forall w r c sched, reachable w r c (run w r sched (start r c)).
Proof. intros. exists sched. reflexivity. Qed.

(** ** The claims about the graph *)

(** C1, as the code has it.  In every state of every run the graph
    has no cycle.  An edge insertion that would close a cycle (the
    pair is not linked yet and the target already reaches the source)
    is refused inside the critical section: the graph stays as it is
    and the branch fails with a [TaskfileCycleError] carrying exactly
    that source and destination.  From then on [Read] can only fail:
    when it returns, it returns no graph and one of the errors that
    the branches raised, which is that [TaskfileCycleError] whenever
    no other branch raised one. *)
Theorem graph_stays_acyclic : forall w r c sched,
  let s := run w r sched (start r c) in
  acyclic (edges (graph s)) /\
  (forall source target include,
     ~ In (source, target) (map edgeKey (edges (graph s))) ->
     path (edges (graph s)) target source ->
     AddEdge (graph s) source target [include] 1 = inl ErrEdgeCreatesCycle /\
     linkEdge (graph s) source target include
     = (graph s, Some (TaskfileCycleError source target))) /\
  (forall i t parent nd vars include n,
     nth_error (pool s) i = Some t -> at_ t = Linking n ->
     owned t = ByGo parent nd vars include ->
     ~ In (Node.Location nd, Node.Location n) (map edgeKey (edges (graph s))) ->
     path (edges (graph s)) (Node.Location n) (Node.Location nd) ->
     let raised := TaskfileCycleError (Node.Location nd) (Node.Location n) in
     let s' := step w r i s in
     graph s' = graph s /\
     option_map at_ (nth_error (pool s') i) = Some (Returned (Some raised)) /\
     failures s' = failures s ++ [raised] /\
     forall sched' res,
       ReadResult (run w r sched' s') = Some res ->
       exists err, res = (None, Some err) /\
                   In err (failures (run w r sched' s')) /\
                   (failures (run w r sched' s') = [raised] -> err = raised)) /\
  (Read Examples.twoCycle (Examples.reader "A") Cache.empty
        [0; 0; 1; 1; 1; 2; 2; 2; 1; 1; 0]
   = Some (None, Some (TaskfileCycleError "A" "B")) /\
   forall sched' res,
     Read Examples.twoCycle (Examples.reader "A") Cache.empty sched' = Some res ->
     res = (None, Some (TaskfileCycleError "A" "B"))).
Proof.
  intros w r c sched s.
  pose proof (reachable_runs w r c sched) as Hreach. fold s in Hreach.
  pose proof (reachable_wellFormed w r c s Hreach) as Hwf.
  pose proof (reachable_orderly w r c s Hreach) as Hord.
  assert (Hrej : forall source target include,
             ~ In (source, target) (map edgeKey (edges (graph s))) ->
             path (edges (graph s)) target source ->
             AddEdge (graph s) source target [include] 1 = inl ErrEdgeCreatesCycle /\
             linkEdge (graph s) source target include
             = (graph s, Some (TaskfileCycleError source target))).
  { intros source target include Hnone Hpath.
    assert (Hget : GetEdge (graph s) source target = inl ErrEdgeNotFound).
    { destruct (GetEdge (graph s) source target) as [e | e] eqn:Hget.
      - destruct (GetEdge_missing _ _ _ _ Hget) as [-> _]. reflexivity.
      - destruct (GetEdge_found _ _ _ _ Hget) as [Hin Hk].
        exfalso. apply Hnone. rewrite <- Hk. apply in_map. exact Hin. }
    apply CreatesCycle_iff in Hpath.
    unfold linkEdge, AddEdge. rewrite Hget, Hpath. auto. }
  split; [exact (wf_acyclic _ Hwf) |]. split; [exact Hrej |].
  split; [| split; [vm_compute; reflexivity | exact Read_two_cycle_always]].
  intros i t parent nd vars include n Ht Hat Hown Hnone Hpath raised s'.
  destruct (Hrej _ _ include Hnone Hpath) as [_ Hlink].
  assert (Hs' : s' = mkState (graph s) (mem s)
                       (goReturn i t (Some raised) (pool s))
                       (failures s ++ [raised])).
  { unfold s'. rewrite (step_linking w r i s t parent nd vars include n Ht Hat Hown).
    cbv zeta. rewrite Hlink. reflexivity. }
  rewrite Hs'. cbn [graph pool failures].
  split; [reflexivity |]. split.
  { rewrite (goReturn_self s i t (Some raised) Hord Ht). reflexivity. }
  split; [reflexivity |].
  intros sched' res Hres. rewrite <- Hs' in *.
  assert (Hreach' : reachable w r c s') by (apply reachable_step; exact Hreach).
  assert (Hne : failures s' <> []).
  { rewrite Hs'. simpl. intro H. apply app_eq_nil in H. destruct H. discriminate. }
  destruct (Read_fails_after w r c s' sched' res Hreach' Hne Hres)
    as (err & Hin & ->).
  exists err. split; [reflexivity |]. split; [exact Hin |].
  intro Honly. rewrite Honly in Hin. destruct Hin as [<- | []]. reflexivity.
Qed.

(** C1, the claim as stated fails.  First world: A includes a file
    that does not exist, and itself.  The branch of the missing file
    fails first; the insertion of the loop A -> A is then refused with
    [TaskfileCycleError A A], yet [Read] returns the error of the
    missing file.  Second world: A includes itself and B, and B
    includes A.  The loop A -> A is refused first; when goroutine 2 is
    about to link A -> B, the edge B -> A is in the graph, so this
    insertion is refused too, with [TaskfileCycleError A B]; yet [Read]
    returns [TaskfileCycleError A A]. *)
Lemma Read_returns_the_first_error_only :
  (let w := Examples.missingAndSelf in
   let r := Examples.reader "A" in
   let before := run w r [0; 0; 1; 2; 2] (start r Cache.empty) in
   CreatesCycle (graph before) "A" "A" = true /\
   snd (linkEdge (graph before) "A" "A" (Examples.inc "self" "A" false))
   = Some (TaskfileCycleError "A" "A") /\
   failures (step w r 2 before) = [ErrNotExist; TaskfileCycleError "A" "A"] /\
   Read w r Cache.empty [0; 0; 1; 2; 2; 2; 0] = Some (None, Some ErrNotExist)) /\
  (let w := Examples.twoRejections in
   let r := Examples.reader "A" in
   let before :=
     run w r [0; 0; 1; 1; 1; 2; 2; 2; 3; 3; 3; 2] (start r Cache.empty) in
   CreatesCycle (graph before) "A" "B" = true /\
   snd (linkEdge (graph before) "A" "B" (Examples.inc "b" "B" false))
   = Some (TaskfileCycleError "A" "B") /\
   failures (step w r 2 before)
   = [TaskfileCycleError "A" "A"; TaskfileCycleError "A" "B"] /\
   Read w r Cache.empty [0; 0; 1; 1; 1; 2; 2; 2; 3; 3; 3; 2; 2; 0]
   = Some (None, Some (TaskfileCycleError "A" "A"))).
Proof. vm_compute. repeat split. Qed.

(** ** Vertices *)

Lemma NoDup_app_left : forall (A : Type) (l l' : list A),
  NoDup (l ++ l') -> NoDup l.
Proof.
  intros A l l'. induction l as [|x rest IH]; intro H; [constructor |].
  simpl in H. inversion H as [| ? ? Hx Hrest]. subst. constructor.
  - intro Hin. apply Hx. apply in_or_app. left. exact Hin.
  - apply IH. exact Hrest.
Qed.

(** C2 (vertex insertion is idempotent).  In every state of every run
    there is one vertex per identity and no document was handed to
    [readNode] twice; when [Read] returns, the documents read are
    exactly the vertices, each read once.  A call of [include] for an
    identity that has a vertex returns nil at once: it changes neither
    the graph nor the cache nor the trace, and its goroutine goes on
    to link the edge; a call for a new identity adds one vertex,
    without a document yet, and goes on to read it, which enters
    [readNode] once.  In the diamond (A includes B and C, both include
    D), whatever the schedule, [Read] returns the graph and no error;
    the graph has one vertex for D, read once, and the two edges
    B -> D and C -> D; this is so also in the run where C meets D
    while B's branch is still reading it. *)
Theorem vertex_insertion_is_idempotent : forall w r c sched,
  let s := run w r sched (start r c) in
  NoDup (map TaskfileVertex.URI (vertices (graph s))) /\
  NoDup (readNodes (trace (mem s))) /\
  (forall res, ReadResult s = Some res ->
     Permutation (map TaskfileVertex.URI (vertices (graph s)))
                 (readNodes (trace (mem s)))) /\
  (forall i t n,
     nth_error (pool s) i = Some t -> at_ t = Including n ->
     let s' := step w r i s in
     if hasVertex (graph s) (Node.Location n) then
       graph s' = graph s /\ mem s' = mem s /\ failures s' = failures s /\
       option_map at_ (nth_error (pool s') i)
       = Some (match owned t with
               | ByRead => Returned None
               | ByGo _ _ _ _ => Linking n
               end)
     else
       vertices (graph s')
       = vertices (graph s) ++ [TaskfileVertex.mk (Node.Location n) None] /\
       edges (graph s') = edges (graph s) /\ mem s' = mem s /\
       option_map at_ (nth_error (pool s') i) = Some (Reading n)) /\
  (forall i t n,
     nth_error (pool s) i = Some t -> at_ t = Reading n ->
     readNodes (trace (mem (step w r i s)))
     = readNodes (trace (mem s)) ++ [Node.Location n]) /\
  (let d := Examples.diamond in
   let ra := Examples.reader "A" in
   let inFlight := [0; 0; 1; 1; 1; 2; 2; 2; 3; 3; 4; 4; 4; 3; 3; 3; 1; 1; 2; 2; 0] in
   let s2 := run d ra inFlight (start ra Cache.empty) in
   option_map at_ (nth_error (pool (run d ra [0; 0; 1; 1; 1; 2; 2; 2; 3; 3; 4; 4; 4]
                                        (start ra Cache.empty))) 3)
   = Some (Reading (Node.mk "D" false)) /\
   ReadResult s2 = Some (Some (graph s2), None) /\
   map TaskfileVertex.URI (vertices (graph s2)) = ["A"; "B"; "C"; "D"] /\
   map edgeKey (edges (graph s2))
   = [("C", "D"); ("B", "D"); ("A", "B"); ("A", "C")] /\
   readNodes (trace (mem s2)) = ["A"; "B"; "C"; "D"] /\
   forall sched' res,
     Read d ra Cache.empty sched' = Some res ->
     let s' := run d ra sched' (start ra Cache.empty) in
     res = (Some (graph s'), None) /\
     List.length (vertices (graph s')) = 4 /\
     hasVertex (graph s') "D" = true /\
     List.length (edges (graph s')) = 4 /\
     (exists e, GetEdge (graph s') "B" "D" = inr e /\
                Edge.Weight e = 1 /\ List.length (Edge.Data e) = 1) /\
     (exists e, GetEdge (graph s') "C" "D" = inr e /\
                Edge.Weight e = 1 /\ List.length (Edge.Data e) = 1) /\
     count_occ string_dec (readNodes (trace (mem s'))) "D" = 1).
Proof.
  intros w r c sched s.
  pose proof (reachable_runs w r c sched) as Hreach. fold s in Hreach.
  pose proof (reachable_wellFormed w r c s Hreach) as Hwf.
  pose proof (reachable_orderly w r c s Hreach) as Hord.
  pose proof (reachable_readOnce w r c s Hreach) as Honce.
  split; [exact (wf_vertices _ Hwf) |].
  split.
  { apply NoDup_app_left with (l' := pending (pool s)).
    eapply Permutation_NoDup; [exact Honce | exact (wf_vertices _ Hwf)]. }
  split; [intros res Hres; exact (Read_read_each_once w r c s res Hreach Hres) |].
  split.
  { intros i t n Ht Hat s'. unfold s'.
    rewrite (step_including w r i s t n Ht Hat).
    destruct (hasVertex (graph s) (Node.Location n)); cbn [graph mem pool failures].
    - repeat split; try reflexivity.
      rewrite includeReturn_nil. destruct (owned t).
      + rewrite (goReturn_self s i t None Hord Ht). reflexivity.
      + rewrite (setStage_self (pool s) i t (Linking n) Ht). reflexivity.
    - repeat split; try reflexivity.
      rewrite (setStage_self (pool s) i t (Reading n) Ht). reflexivity. }
  split.
  { intros i t n Ht Hat. rewrite (step_reading w r i s t n Ht Hat).
    apply readNode_readNodes. }
  cbv zeta.
  repeat (split; [vm_compute; reflexivity |]).
  exact Read_diamond_always.
Qed.

(** ** Edges *)

Lemma find_replaced : forall s t new es e,
  isEdge s t new = true ->
  find (isEdge s t) es = Some e ->
  find (isEdge s t) (map (fun e' => if isEdge s t e' then new else e') es)
  = Some new.
Proof.
  intros s t new es e Hnew. induction es as [|x rest IH]; simpl; [discriminate |].
  destruct (isEdge s t x) eqn:Hx.
  - intros _. simpl. rewrite Hnew. reflexivity.
  - intro H. simpl. rewrite Hx. apply IH. exact H.
Qed.

Lemma find_appended : forall (f : Edge.t -> bool) es x,
  find f es = None -> f x = true -> find f (es ++ [x]) = Some x.
Proof.
  intros f es x. induction es as [|y rest IH]; simpl; intros Hnone Hx.
  - rewrite Hx. reflexivity.
  - destruct (f y); [discriminate |]. apply IH; assumption.
Qed.

Lemma isEdge_mk : forall s t data weight,
  isEdge s t (Edge.mk s t data weight) = true.
Proof. intros. unfold isEdge. simpl. rewrite !String.eqb_refl. reflexivity. Qed.

(** C6 (edge aggregation).  In every state of every run there is at
    most one edge per ordered pair of vertices and the weight of every
    edge is the length of its payload.  Linking a pair that has no
    edge yet (and would not close a cycle) creates the edge with the
    one declaration as payload and weight 1; linking a pair that has an
    edge keeps the edges where they are, appends the declaration to
    the payload of that edge and sets its weight to the new length,
    leaving the other edges as they were.  When A includes B through
    two declarations, one edge A -> B results, with both declarations
    as payload and weight 2, whatever the schedule; the payload is in
    the order in which the two branches reached the critical
    section. *)
Theorem edges_aggregate_include_declarations : forall w r c sched,
  let g := graph (run w r sched (start r c)) in
  NoDup (map edgeKey (edges g)) /\
  Forall (fun e => Edge.Weight e = List.length (Edge.Data e)) (edges g) /\
  (forall source target include,
     let out := linkEdge g source target include in
     match GetEdge g source target with
     | inl _ =>
         if CreatesCycle g source target then fst out = g
         else
           snd out = None /\
           edges (fst out) = edges g ++ [Edge.mk source target [include] 1] /\
           GetEdge (fst out) source target
           = inr (Edge.mk source target [include] 1)
     | inr e =>
         snd out = None /\
         map edgeKey (edges (fst out)) = map edgeKey (edges g) /\
         GetEdge (fst out) source target
         = inr (Edge.mk source target (Edge.Data e ++ [include])
                        (List.length (Edge.Data e) + 1)) /\
         (forall e', In e' (edges g) -> isEdge source target e' = false ->
                     In e' (edges (fst out)))
     end) /\
  (let tw := Examples.twice in
   let ra := Examples.reader "A" in
   let s1 := run tw ra [0; 0; 1; 1; 1; 1; 1; 2; 2; 2; 0] (start ra Cache.empty) in
   let s2 := run tw ra [0; 0; 1; 1; 2; 2; 2; 1; 1; 1; 0] (start ra Cache.empty) in
   ReadResult s1 = Some (Some (graph s1), None) /\
   map edgeSummary (edges (graph s1)) = [("A", "B", ["b1"; "b2"], 2)] /\
   ReadResult s2 = Some (Some (graph s2), None) /\
   map edgeSummary (edges (graph s2)) = [("A", "B", ["b2"; "b1"], 2)] /\
   forall sched' res,
     Read tw ra Cache.empty sched' = Some res ->
     let s' := run tw ra sched' (start ra Cache.empty) in
     res = (Some (graph s'), None) /\
     List.length (edges (graph s')) = 1 /\
     exists e, GetEdge (graph s') "A" "B" = inr e /\
               Edge.Weight e = 2 /\ List.length (Edge.Data e) = 2).
Proof.
  intros w r c sched g.
  pose proof (reachable_wellFormed w r c _ (reachable_runs w r c sched)) as Hwf.
  fold g in Hwf.
  split; [exact (wf_edges _ Hwf) |].
  split.
  { eapply Forall_impl; [| exact (wf_weights _ Hwf)]. intros e [He _]. exact He. }
  split.
  { intros source target include out. subst out. unfold linkEdge.
    destruct (GetEdge g source target) as [err | e] eqn:Hget.
    - destruct (GetEdge_missing _ _ _ _ Hget) as [-> _].
      unfold AddEdge. rewrite Hget.
      destruct (CreatesCycle g source target); simpl; [reflexivity |].
      split; [reflexivity |]. split; [reflexivity |].
      unfold GetEdge in *. simpl.
      destruct (find (isEdge source target) (edges g)) eqn:Hf; [discriminate |].
      rewrite (find_appended _ _ _ Hf (isEdge_mk _ _ _ _)). reflexivity.
    - unfold UpdateEdge. rewrite Hget. simpl.
      split; [reflexivity |]. split; [apply replace_keys |]. split.
      + unfold GetEdge in *. simpl.
        destruct (find (isEdge source target) (edges g)) as [e0|] eqn:Hf;
          [| discriminate].
        rewrite (find_replaced _ _ _ _ e0 (isEdge_mk _ _ _ _) Hf).
        rewrite length_app. reflexivity.
      + intros e' Hin Hne. apply in_map_iff. exists e'. rewrite Hne. auto. }
  cbv zeta.
  repeat (split; [vm_compute; reflexivity |]).
  exact Read_twice_always.
Qed.

(** ** What [Read] hands back *)

Lemma hasVertex_AddVertex : forall g v g' uri,
  AddVertex g v = inr g' ->
  hasVertex g' uri = hasVertex g uri || (TaskfileVertex.URI v =? uri).
Proof.
  intros g v g' uri Hadd. unfold hasVertex.
  rewrite (AddVertex_vertices _ _ _ Hadd), existsb_app. simpl.
  rewrite orb_false_r. reflexivity.
Qed.

Lemma hasVertex_same_URIs : forall g g' uri,
  map TaskfileVertex.URI (vertices g') = map TaskfileVertex.URI (vertices g) ->
  hasVertex g uri = true -> hasVertex g' uri = true.
Proof.
  intros g g' uri Heq H. apply hasVertex_iff. rewrite Heq.
  apply hasVertex_iff. exact H.
Qed.

Lemma moves_rootKept : forall w r i t s s',
  moves w r i t s s' -> nth_error (pool s) i = Some t ->
  rootKept r s -> rootKept r s'.
Proof.
  intros w r i t s s' Hm Ht [Hpool | Hhas].
  - rewrite Hpool in Ht. destruct i as [|[|i]]; try discriminate.
    inversion Ht. subst t. right.
    destruct Hm; simpl in *; try discriminate.
    + match goal with H : Including _ = Including _ |- _ => inversion H; subst end.
      unfold AddVertex in *. simpl in *.
      destruct (hasVertex (graph s) (Node.Location (node r))) eqn:Hh;
        [| discriminate].
      first [exact Hh | reflexivity].
    + match goal with H : Including _ = Including _ |- _ => inversion H; subst end.
      match goal with H : AddVertex _ _ = inr _ |- _ =>
        rewrite (hasVertex_AddVertex _ _ _ (Node.Location (node r)) H) end.
      simpl. rewrite String.eqb_refl. apply orb_true_r.
  - right. destruct Hm; simpl; try exact Hhas.
    + match goal with H : AddVertex _ _ = inr _ |- _ =>
        rewrite (hasVertex_AddVertex _ _ _ (Node.Location (node r)) H) end.
      rewrite Hhas. reflexivity.
    + eapply hasVertex_same_URIs; [| exact Hhas].
      apply setVertexTaskfile_URIs.
    + eapply hasVertex_same_URIs; [| exact Hhas].
      rewrite linkEdge_vertices. reflexivity.
Qed.

Lemma reachable_rootKept : forall w r c s, reachable w r c s -> rootKept r s.
Proof.
  intros w r c. apply reachable_ind.
  - left. reflexivity.
  - intros i t s s' Hinv Ht Hm. eapply moves_rootKept; eassumption.
Qed.

(** C8, the claim as stated fails.  A includes a file that does not
    exist: [Read] returns the error and no graph, although the
    reader's graph holds the vertex of A by then. *)
Lemma Read_hands_back_no_partial_graph :
  let w := Examples.missing false in
  let r := Examples.reader "A" in
  Read w r Cache.empty [0; 0; 1; 0] = Some (None, Some ErrNotExist) /\
  map TaskfileVertex.URI
      (vertices (graph (run w r [0; 0; 1; 0] (start r Cache.empty))))
  = ["A"].
Proof. vm_compute. split; reflexivity. Qed.

(** C8, as the code has it.  What [Read] returns is either the graph
    and no error, when no branch raised one, or an error and no graph:
    the graph built before the failure is not handed to the caller.
    It stays in the reader, well formed and holding at least the root
    vertex. *)
Theorem Read_returns_the_graph_or_the_error : forall w r c sched res,
  Read w r c sched = Some res ->
  let s := run w r sched (start r c) in
  (res = (Some (graph s), None) /\ failures s = []) \/
  (exists err, res = (None, Some err) /\ In err (failures s) /\
               wellFormed (graph s) /\
               hasVertex (graph s) (Node.Location (node r)) = true).
Proof.
  intros w r c sched res Hres s.
  pose proof (reachable_runs w r c sched) as Hreach. fold s in Hreach.
  unfold Read in Hres. fold s in Hres.
  destruct (Read_returns w r c s res Hreach Hres) as [[Hnil ->] | (err & Hin & ->)].
  - left. auto.
  - right. exists err. split; [reflexivity |]. split; [exact Hin |].
    split; [exact (reachable_wellFormed w r c s Hreach) |].
    destruct (reachable_rootKept w r c s Hreach) as [Hpool | Hhas]; [| exact Hhas].
    unfold ReadResult in Hres. rewrite Hpool in Hres. discriminate.
Qed.

Lemma Read_returns_the_graph_or_the_error_witness :
  exists err,
    (None, Some ErrNotExist) = (@None TaskfileGraph, Some err) /\
    In err (failures (run (Examples.missing false) (Examples.reader "A")
                          [0; 0; 1; 0]
                          (start (Examples.reader "A") Cache.empty))).
Proof.
  destruct (Read_returns_the_graph_or_the_error
              (Examples.missing false) (Examples.reader "A") Cache.empty
              [0; 0; 1; 0] (None, Some ErrNotExist) eq_refl)
    as [[H _] | (err & H & Hin & _)].
  - discriminate H.
  - exists err. split; [exact H | exact Hin].
Defined.

(** ** Optional includes *)

Lemma renderInclude_Optional : forall w vars include,
  Include.Optional (fst (renderInclude w vars include))
  = Include.Optional include.
Proof.
  intros w vars include. unfold renderInclude.
  destruct (Replace w (Include.Taskfile include) _) as [taskfile c1].
  destruct (Replace w (Include.Dir include) c1) as [dir c2].
  destruct (ReplaceVars w (Include.Vars include) c2) as [ivars c3].
  reflexivity.
Qed.

(** A declaration that renders and resolves but whose node cannot be
    built: the goroutine returns nil when the declaration is optional
    and the error of [NewNode] otherwise. *)
Lemma resolveInclude_rejected_node :
  forall w r nd vars include include' cache' entrypoint dir err,
  renderInclude w vars include = (include', cache') ->
  templater.err cache' = None ->
  ResolveEntrypoint w nd (Include.Taskfile include') = inr entrypoint ->
  ResolveDir w nd (Include.Dir include') = inr dir ->
  NewNode w entrypoint dir (insecure r) (timeout r) nd = inl err ->
  resolveInclude w r nd vars include
  = if Include.Optional include then Rskip else Rerr err.
Proof.
  intros w r nd vars include include' cache' entrypoint dir err
         Hrender Herr Hentry Hdir Hnode.
  pose proof (renderInclude_Optional w vars include) as Hopt.
  unfold resolveInclude. rewrite Hrender in *. simpl in Hopt.
  rewrite Herr, Hentry, Hdir. simpl. rewrite Hnode, Hopt. reflexivity.
Qed.

(** Only the failure of [NewNode] is forgiven: an error of the
    templates, of [ResolveEntrypoint] or of [ResolveDir] is returned
    whether or not the declaration is optional. *)
Lemma resolveInclude_other_errors :
  forall w r nd vars include,
  let '(include', cache') := renderInclude w vars include in
  match templater.err cache' with
  | Some err => resolveInclude w r nd vars include = Rerr err
  | None =>
      match ResolveEntrypoint w nd (Include.Taskfile include') with
      | inl err => resolveInclude w r nd vars include = Rerr err
      | inr _ =>
          match ResolveDir w nd (Include.Dir include') with
          | inl err => resolveInclude w r nd vars include = Rerr err
          | inr _ => True
          end
      end
  end.
Proof.
  intros w r nd vars include. unfold resolveInclude.
  destruct (renderInclude w vars include) as [include' cache'].
  destruct (templater.err cache'); [reflexivity |].
  destruct (ResolveEntrypoint w nd _); [reflexivity |].
  destruct (ResolveDir w nd _); [reflexivity | exact I].
Qed.

(** C5, the claim as stated fails.  The one include of A is optional
    and its target cannot be resolved: in one world the entrypoint does
    not resolve, in the other the file is there but cannot be read.
    In both [Read] fails with the error of the resolution. *)
Lemma optional_include_does_not_forgive_every_failure :
  map Include.Optional
      (Taskfile.Includes (Examples.document [Examples.inc "u" "${" true]))
  = [true] /\
  ResolveEntrypoint Examples.unresolved (Node.mk "A" false) "${"
  = inl (OtherError "cannot resolve entrypoint") /\
  Read Examples.unresolved (Examples.reader "A") Cache.empty [0; 0; 1; 0]
  = Some (None, Some (OtherError "cannot resolve entrypoint")) /\
  map Include.Optional
      (Taskfile.Includes (Examples.document [Examples.inc "s" "secret.yml" true]))
  = [true] /\
  Read Examples.unreadable (Examples.reader "A") Cache.empty
       [0; 0; 1; 1; 1; 0]
  = Some (None, Some (OtherError "permission denied")).
Proof. vm_compute. repeat split. Qed.

(** C5, as the code has it.  Take a goroutine that is about to
    resolve an include declaration.  If its templates render and its
    entrypoint and directory resolve, but [NewNode] is rejected with
    [err], then: when the declaration is optional the branch returns
    nil and is a no-op (graph, cache, trace and raised errors are as
    before), so that [Read] returns the graph whenever no branch raises
    an error; when it is not optional the branch raises [err] and
    [Read] can only fail, with no graph and one of the errors raised,
    which is [err] whenever no other branch raised one.  If instead
    the templates, [ResolveEntrypoint] or [ResolveDir] fail, the branch
    raises that error whether or not the declaration is optional.  In
    the world where A includes a missing file, whatever the schedule,
    [Read] returns the graph with the vertex A alone when the include
    is optional, and the error of [NewNode] when it is not. *)
Theorem optional_include_forgives_a_rejected_node :
  forall w r c sched i t parent nd vars include,
  let s := run w r sched (start r c) in
  nth_error (pool s) i = Some t -> at_ t = Spawned ->
  owned t = ByGo parent nd vars include ->
  let s' := step w r i s in
  let rendered := renderInclude w vars include in
  (forall entrypoint dir err,
     templater.err (snd rendered) = None ->
     ResolveEntrypoint w nd (Include.Taskfile (fst rendered)) = inr entrypoint ->
     ResolveDir w nd (Include.Dir (fst rendered)) = inr dir ->
     NewNode w entrypoint dir (insecure r) (timeout r) nd = inl err ->
     if Include.Optional include then
       graph s' = graph s /\ mem s' = mem s /\ failures s' = failures s /\
       option_map at_ (nth_error (pool s') i) = Some (Returned None) /\
       (forall sched' res,
          ReadResult (run w r sched' s') = Some res ->
          failures (run w r sched' s') = [] ->
          res = (Some (graph (run w r sched' s')), None))
     else
       graph s' = graph s /\ mem s' = mem s /\
       failures s' = failures s ++ [err] /\
       option_map at_ (nth_error (pool s') i) = Some (Returned (Some err)) /\
       (forall sched' res,
          ReadResult (run w r sched' s') = Some res ->
          exists err', res = (None, Some err') /\
                       In err' (failures (run w r sched' s')) /\
                       (failures (run w r sched' s') = [err] -> err' = err))) /\
  (forall err,
     templater.err (snd rendered) = Some err \/
     (templater.err (snd rendered) = None /\
      ResolveEntrypoint w nd (Include.Taskfile (fst rendered)) = inl err) \/
     (templater.err (snd rendered) = None /\
      (exists entrypoint,
         ResolveEntrypoint w nd (Include.Taskfile (fst rendered))
         = inr entrypoint) /\
      ResolveDir w nd (Include.Dir (fst rendered)) = inl err) ->
     failures s' = failures s ++ [err] /\
     option_map at_ (nth_error (pool s') i) = Some (Returned (Some err))) /\
  (forall sched',
     (forall res,
        Read (Examples.missing true) (Examples.reader "A") Cache.empty sched'
        = Some res ->
        let s1 := run (Examples.missing true) (Examples.reader "A") sched'
                      (start (Examples.reader "A") Cache.empty) in
        res = (Some (graph s1), None) /\
        map TaskfileVertex.URI (vertices (graph s1)) = ["A"] /\
        edges (graph s1) = []) /\
     (forall res,
        Read (Examples.missing false) (Examples.reader "A") Cache.empty sched'
        = Some res ->
        res = (None, Some ErrNotExist))).
Proof.
  intros w r c sched i t parent nd vars include s Ht Hat Hown s' rendered.
  pose proof (reachable_runs w r c sched) as Hreach. fold s in Hreach.
  pose proof (reachable_orderly w r c s Hreach) as Hord.
  assert (Hreach' : reachable w r c s') by (apply reachable_step; exact Hreach).
  pose proof (step_spawned w r i s t parent nd vars include Ht Hat Hown) as Hstep.
  fold s' in Hstep.
  assert (Hraise : forall err,
             resolveInclude w r nd vars include = Rerr err ->
             failures s' = failures s ++ [err] /\
             option_map at_ (nth_error (pool s') i) = Some (Returned (Some err)) /\
             graph s' = graph s /\ mem s' = mem s).
  { intros err Hres. rewrite Hres in Hstep. rewrite Hstep. cbn [graph mem pool failures].
    rewrite (goReturn_self s i t (Some err) Hord Ht). auto. }
  split; [| split; [| exact Read_missing_always]].
  - intros entrypoint dir err Herr Hentry Hdir Hnode.
    pose proof (resolveInclude_rejected_node w r nd vars include
                  (fst rendered) (snd rendered) entrypoint dir err
                  (surjective_pairing _) Herr Hentry Hdir Hnode) as Hres.
    destruct (Include.Optional include).
    + rewrite Hres in Hstep.
      rewrite Hstep at 1 2 3 4. cbn [graph mem pool failures].
      repeat (split; [reflexivity |]).
      split; [rewrite (goReturn_self s i t None Hord Ht); reflexivity |].
      intros sched' res Hr Hnil.
      destruct (Read_returns w r c _ res (reachable_run w r c sched' s' Hreach') Hr)
        as [[_ ->] | (e & Hin & _)]; [reflexivity |].
      rewrite Hnil in Hin. destruct Hin.
    + destruct (Hraise err Hres) as (Hf & Hst & Hg & Hm).
      repeat (split; [assumption |]).
      intros sched' res Hr.
      assert (Hne : failures s' <> []).
      { rewrite Hf. intro H. apply app_eq_nil in H. destruct H. discriminate. }
      destruct (Read_fails_after w r c s' sched' res Hreach' Hne Hr)
        as (e & Hin & ->).
      exists e. split; [reflexivity |]. split; [exact Hin |].
      intro Honly. rewrite Honly in Hin. destruct Hin as [<- | []]. reflexivity.
  - intros err Hcase.
    assert (Hres : resolveInclude w r nd vars include = Rerr err).
    { pose proof (resolveInclude_other_errors w r nd vars include) as Hother.
      fold rendered in Hother. destruct rendered as [include' cache']. simpl in *.
      destruct Hcase as [He | [[He Hentry] | (He & [entrypoint Hentry] & Hdir)]].
      - rewrite He in Hother. exact Hother.
      - rewrite He, Hentry in Hother. exact Hother.
      - rewrite He, Hentry, Hdir in Hother. exact Hother. }
    destruct (Hraise err Hres) as (Hf & Hst & _). auto.
Qed.

Lemma optional_include_forgives_a_rejected_node_witness :
  (let w := Examples.missing true in
   let r := Examples.reader "A" in
   let s := run w r [0; 0] (start r Cache.empty) in
   graph (step w r 1 s) = graph s /\
   option_map at_ (nth_error (pool (step w r 1 s)) 1) = Some (Returned None)) /\
  (let w := Examples.missing false in
   let r := Examples.reader "A" in
   let s := run w r [0; 0] (start r Cache.empty) in
   failures (step w r 1 s) = failures s ++ [ErrNotExist]) /\
  (let w := Examples.unresolved in
   let r := Examples.reader "A" in
   let s := run w r [0; 0] (start r Cache.empty) in
   failures (step w r 1 s)
   = failures s ++ [OtherError "cannot resolve entrypoint"]).
Proof.
  split; [| split].
  - pose proof (proj1 (optional_include_forgives_a_rejected_node
                  (Examples.missing true) (Examples.reader "A") Cache.empty [0; 0] 1
                  (mkGoroutine (ByGo 0 (Node.mk "A" false) []
                                     (Examples.inc "m" "missing.yml" true))
                               Spawned)
                  0 (Node.mk "A" false) [] (Examples.inc "m" "missing.yml" true)
                  eq_refl eq_refl eq_refl)
                  "missing.yml" "" ErrNotExist eq_refl eq_refl eq_refl eq_refl)
      as H.
    simpl Include.Optional in H. cbv iota in H.
    destruct H as (H1 & _ & _ & H4 & _). cbv zeta. split; assumption.
  - pose proof (proj1 (optional_include_forgives_a_rejected_node
                  (Examples.missing false) (Examples.reader "A") Cache.empty [0; 0] 1
                  (mkGoroutine (ByGo 0 (Node.mk "A" false) []
                                     (Examples.inc "m" "missing.yml" false))
                               Spawned)
                  0 (Node.mk "A" false) [] (Examples.inc "m" "missing.yml" false)
                  eq_refl eq_refl eq_refl)
                  "missing.yml" "" ErrNotExist eq_refl eq_refl eq_refl eq_refl)
      as H.
    simpl Include.Optional in H. cbv iota in H.
    destruct H as (_ & _ & H3 & _). cbv zeta. exact H3.
  - pose proof (proj1 (proj2 (optional_include_forgives_a_rejected_node
                  Examples.unresolved (Examples.reader "A") Cache.empty [0; 0] 1
                  (mkGoroutine (ByGo 0 (Node.mk "A" false) []
                                     (Examples.inc "u" "${" true))
                               Spawned)
                  0 (Node.mk "A" false) [] (Examples.inc "u" "${" true)
                  eq_refl eq_refl eq_refl))
                  (OtherError "cannot resolve entrypoint")
                  (or_intror (or_introl (conj eq_refl eq_refl))))
      as H.
    cbv zeta. exact (proj1 H).
Defined.
